(** * Zoomy: viewport fitting and start/end zoom animation

    A shallow embedding of [zoomy.cpp]: the aspect-ratio fitter
    [PutScreenOverCoordinates], the body of the main loop of [WinMain]
    (space bar animation, Q/W/E/R corner editing), the message pump and the
    wait for a lost device.

    The source computes with C++ [float].  The program is written once, over
    an abstract arithmetic [Arith], so that the laws which depend on no
    property of the arithmetic are stated for every instance.  The
    arithmetic the machine runs is [b32_arith]: IEEE-754 binary32 with
    round-to-nearest-even (the [SpecFloat] operations at precision 24),
    infinities and NaN included.  Rational numbers appear only as the
    values of binary32 results, to measure rounding errors. *)

From Stdlib Require Import ZArith NArith QArith Qabs Qpower Bool List Lia Lqa.
From Stdlib Require Import Floats.SpecFloat.
Import ListNotations.

Set Implicit Arguments.

(** ** Arithmetic of the source's [float] *)

Declare Scope fl_scope.
Delimit Scope fl_scope with fl.

Class Arith (F : Type) : Type := {
  (** conversion of an integer value or integer literal: [(float)n] *)
  of_int : Z -> F;
  (** a decimal literal with the [f] suffix, given as a fraction *)
  literal : Z -> positive -> F;
  add : F -> F -> F;
  sub : F -> F -> F;
  mul : F -> F -> F;
  div : F -> F -> F;
  (** the comparison [a < b] *)
  ltb : F -> F -> bool
}.

Infix "+" := add : fl_scope.
Infix "-" := sub : fl_scope.
Infix "*" := mul : fl_scope.
Infix "/" := div : fl_scope.
Infix "<?" := ltb : fl_scope.

(** IEEE-754 binary32: 24 bits of precision, infinities at exponent 128. *)
Module B32.
Definition prec : Z := 24.
Definition emax : Z := 128.

Definition t : Type := spec_float.

Definition of_Z (n : Z) : t := binary_normalize prec emax n 0 false.
Definition fdiv : t -> t -> t := SFdiv prec emax.
Definition lit (n : Z) (d : positive) : t := fdiv (of_Z n) (of_Z (Zpos d)).

Definition is_finite (x : t) : bool :=
  match x with
  | S754_zero _ | S754_finite _ _ _ => true
  | S754_infinity _ | S754_nan => false
  end.

Definition is_zero (x : t) : bool :=
  match x with
  | S754_zero _ => true
  | _ => false
  end.

(** The rational number a finite value stands for (0 for the others). *)
Definition to_Q (x : t) : Q :=
  match x with
  | S754_finite s m e =>
      let v := match e with
               | Zneg p => Qmake (Zpos m) (Pos.shiftl 1 (Npos p))
               | _ => inject_Z (Zpos m * 2 ^ e)
               end in
      if s then Qopp v else v
  | _ => 0%Q
  end.
End B32.

#[export] Instance b32_arith : Arith B32.t := {|
  of_int := B32.of_Z;
  literal := B32.lit;
  add := SFadd B32.prec B32.emax;
  sub := SFsub B32.prec B32.emax;
  mul := SFmul B32.prec B32.emax;
  div := B32.fdiv;
  ltb := SFltb
|}.

(** ** [PutScreenOverCoordinates] *)

(** The function's return value together with the four in/out parameters as
    they stand on return. *)
Record Fitted (F : Type) : Type := mkFitted {
  scaling : F;
  out_top : F;
  out_left : F;
  out_bottom : F;
  out_right : F
}.

Section Program.
Context {F : Type} {A : Arith F}.
Local Open Scope fl_scope.

Definition PutScreenOverCoordinates (coords_in_dimensions : bool)
    (top left bottom right screen_width screen_height : F) : Fitted F :=
  let screen_aspect := screen_width / screen_height in
  let width := right - left in
  let height := bottom - top in
  let aspect := width / height in
  if (coords_in_dimensions && (screen_aspect <? aspect))
     || (negb coords_in_dimensions && (aspect <? screen_aspect))
  then
    let offset := (width / screen_aspect - height) / of_int 2 in
    {| scaling := width / screen_width;
       out_top := top - offset;
       out_left := left;
       out_bottom := bottom + offset;
       out_right := right |}
  else
    let offset := (height * screen_aspect - width) / of_int 2 in
    {| scaling := height / screen_height;
       out_top := top;
       out_left := left - offset;
       out_bottom := bottom;
       out_right := right + offset |}.

(** ** The main loop of [WinMain] *)

(** What is fixed before the loop starts: the display mode and the image
    size, converted to [float]. *)
Record Config : Type := mkConfig {
  screen_width : F;
  screen_height : F;
  image_width : F;
  image_height : F
}.

(** The local variables of [WinMain] that the loop reads and writes. *)
Record State : Type := mkState {
  start_x1 : F; start_y1 : F; start_x2 : F; start_y2 : F;
  end_x1 : F; end_y1 : F; end_x2 : F; end_y2 : F;
  dx1 : F; dx2 : F; dy1 : F; dy2 : F;
  left : F; top : F; right : F; bottom : F;
  first_loop : bool;
  initialized : bool
}.

(** [float time = 30.0f;] is never assigned again. *)
Definition time : F := literal 30 1.

(** What one pass of the loop samples from the platform. *)
Record Input : Type := mkInput {
  (** the seconds since the last pass, from [HandleMessagePump] *)
  fElapsedTime : F;
  (** [GetKeyState(nVirtKey)], a 16-bit value *)
  GetKeyState : Z -> Z;
  (** [GetCursorPos(&pt)]: [pt.x] and [pt.y] *)
  pt_x : Z;
  pt_y : Z;
  (** whether [BeginScene] succeeded *)
  BeginScene : bool
}.

(** Virtual-key codes. *)
Definition VK_LBUTTON : Z := 0x01.
Definition VK_ESCAPE : Z := 0x1B.
Definition VK_SPACE : Z := 0x20.
Definition VK_0 : Z := 0x30.
Definition VK_1 : Z := 0x31.
Definition VK_2 : Z := 0x32.
Definition VK_3 : Z := 0x33.
Definition VK_4 : Z := 0x34.
Definition VK_5 : Z := 0x35.
Definition VK_6 : Z := 0x36.
Definition VK_7 : Z := 0x37.
Definition VK_8 : Z := 0x38.
Definition VK_9 : Z := 0x39.
Definition VK_E : Z := 0x45.
Definition VK_Q : Z := 0x51.
Definition VK_R : Z := 0x52.
Definition VK_W : Z := 0x57.

(** [GetKeyState(k) & 0x80] used as a condition. *)
Definition down (i : Input) (k : Z) : bool :=
  negb (Z.land (GetKeyState i k) 0x80 =? 0)%Z.

(** [0x80 == (GetKeyState(k) & 0x80)]. *)
Definition down80 (i : Input) (k : Z) : bool :=
  (0x80 =? Z.land (GetKeyState i k) 0x80)%Z.

(** The state at the top of the first pass (lines 261-279). *)
Definition init (c : Config) : State :=
  let start_x1 := of_int 0 in
  let start_y1 := of_int 0 in
  let start_x2 := image_width c in
  let start_y2 := image_height c in
  let end_x1 := of_int 0 in
  let end_y1 := of_int 0 in
  let end_x2 := screen_width c in
  let end_y2 := screen_height c in
  {| start_x1 := start_x1; start_y1 := start_y1;
     start_x2 := start_x2; start_y2 := start_y2;
     end_x1 := end_x1; end_y1 := end_y1; end_x2 := end_x2; end_y2 := end_y2;
     dx1 := (end_x1 - start_x1) / time;
     dx2 := (end_x2 - start_x2) / time;
     dy1 := (end_y1 - start_y1) / time;
     dy2 := (end_y2 - start_y2) / time;
     left := start_x1; top := start_y1; right := start_x2; bottom := start_y2;
     first_loop := true;
     initialized := false |}.

(** The block under [if (!initialized)] (lines 295-305): both boxes are
    passed to the fitter by address. *)
Definition arm (c : Config) (s : State) : State :=
  let fs := PutScreenOverCoordinates false
              (start_y1 s) (start_x1 s) (start_y2 s) (start_x2 s)
              (screen_width c) (screen_height c) in
  let fe := PutScreenOverCoordinates false
              (end_y1 s) (end_x1 s) (end_y2 s) (end_x2 s)
              (screen_width c) (screen_height c) in
  {| start_x1 := out_left fs; start_y1 := out_top fs;
     start_x2 := out_right fs; start_y2 := out_bottom fs;
     end_x1 := out_left fe; end_y1 := out_top fe;
     end_x2 := out_right fe; end_y2 := out_bottom fe;
     dx1 := (out_left fe - out_left fs) / time;
     dx2 := (out_right fe - out_right fs) / time;
     dy1 := (out_top fe - out_top fs) / time;
     dy2 := (out_bottom fe - out_bottom fs) / time;
     left := out_left fs; top := out_top fs;
     right := out_right fs; bottom := out_bottom fs;
     first_loop := first_loop s;
     initialized := true |}.

(** The speed keys (lines 309-318): [fElapsedTime] after the chain. *)
Definition speed (i : Input) (t : F) : F :=
  if down i VK_1 then t * literal 15 100
  else if down i VK_2 then t * literal 25 100
  else if down i VK_3 then t * literal 5 10
  else if down i VK_4 then t * literal 6 10
  else if down i VK_5 then t * literal 8 10
  else if down i VK_6 then t * literal 12 10
  else if down i VK_7 then t * literal 15 10
  else if down i VK_8 then t * literal 18 10
  else if down i VK_9 then t * literal 20 10
  else if down i VK_0 then t * literal 25 10
  else t.

(** Lines 321-324. *)
Definition advance (t : F) (s : State) : State :=
  {| start_x1 := start_x1 s; start_y1 := start_y1 s;
     start_x2 := start_x2 s; start_y2 := start_y2 s;
     end_x1 := end_x1 s; end_y1 := end_y1 s;
     end_x2 := end_x2 s; end_y2 := end_y2 s;
     dx1 := dx1 s; dx2 := dx2 s; dy1 := dy1 s; dy2 := dy2 s;
     left := left s + dx1 s * t;
     top := top s + dy1 s * t;
     right := right s + dx2 s * t;
     bottom := bottom s + dy2 s * t;
     first_loop := first_loop s;
     initialized := initialized s |}.

(** The space-bar block (lines 290-325). *)
Definition zoom (c : Config) (i : Input) (s : State) : State :=
  if down i VK_SPACE then
    let s1 := if negb (initialized s) then arm c s else s in
    advance (speed i (fElapsedTime i)) s1
  else s.

(** Lines 353-366: the flags are cleared and the view is reset to the
    whole image, fitted with [coords_in_dimensions = true]. *)
Definition reset_view (c : Config) (s : State) : State * F :=
  let f := PutScreenOverCoordinates true
             (of_int 0) (of_int 0) (image_height c) (image_width c)
             (screen_width c) (screen_height c) in
  ({| start_x1 := start_x1 s; start_y1 := start_y1 s;
      start_x2 := start_x2 s; start_y2 := start_y2 s;
      end_x1 := end_x1 s; end_y1 := end_y1 s;
      end_x2 := end_x2 s; end_y2 := end_y2 s;
      dx1 := dx1 s; dx2 := dx2 s; dy1 := dy1 s; dy2 := dy2 s;
      left := out_left f; top := out_top f;
      right := out_right f; bottom := out_bottom f;
      first_loop := false;
      initialized := false |}, scaling f).

Definition set_start1 (x y : F) (s : State) : State :=
  {| start_x1 := x; start_y1 := y;
     start_x2 := start_x2 s; start_y2 := start_y2 s;
     end_x1 := end_x1 s; end_y1 := end_y1 s;
     end_x2 := end_x2 s; end_y2 := end_y2 s;
     dx1 := dx1 s; dx2 := dx2 s; dy1 := dy1 s; dy2 := dy2 s;
     left := left s; top := top s; right := right s; bottom := bottom s;
     first_loop := first_loop s; initialized := initialized s |}.

Definition set_start2 (x y : F) (s : State) : State :=
  {| start_x1 := start_x1 s; start_y1 := start_y1 s;
     start_x2 := x; start_y2 := y;
     end_x1 := end_x1 s; end_y1 := end_y1 s;
     end_x2 := end_x2 s; end_y2 := end_y2 s;
     dx1 := dx1 s; dx2 := dx2 s; dy1 := dy1 s; dy2 := dy2 s;
     left := left s; top := top s; right := right s; bottom := bottom s;
     first_loop := first_loop s; initialized := initialized s |}.

Definition set_end1 (x y : F) (s : State) : State :=
  {| start_x1 := start_x1 s; start_y1 := start_y1 s;
     start_x2 := start_x2 s; start_y2 := start_y2 s;
     end_x1 := x; end_y1 := y;
     end_x2 := end_x2 s; end_y2 := end_y2 s;
     dx1 := dx1 s; dx2 := dx2 s; dy1 := dy1 s; dy2 := dy2 s;
     left := left s; top := top s; right := right s; bottom := bottom s;
     first_loop := first_loop s; initialized := initialized s |}.

Definition set_end2 (x y : F) (s : State) : State :=
  {| start_x1 := start_x1 s; start_y1 := start_y1 s;
     start_x2 := start_x2 s; start_y2 := start_y2 s;
     end_x1 := end_x1 s; end_y1 := end_y1 s;
     end_x2 := x; end_y2 := y;
     dx1 := dx1 s; dx2 := dx2 s; dy1 := dy1 s; dy2 := dy2 s;
     left := left s; top := top s; right := right s; bottom := bottom s;
     first_loop := first_loop s; initialized := initialized s |}.

(** The Q/W/E/R block (lines 343-393). *)
Definition edit (c : Config) (i : Input) (s : State) : State :=
  let sp1 := down80 i VK_Q in
  let sp2 := down80 i VK_W in
  let ep1 := down80 i VK_E in
  let ep2 := down80 i VK_R in
  if first_loop s || sp1 || sp2 || ep1 || ep2 then
    let '(s0, scaling) := reset_view c s in
    if down i VK_LBUTTON then
      let x := of_int (pt_x i) * scaling + left s0 in
      let y := of_int (pt_y i) * scaling + top s0 in
      let s1 := if sp1 then set_start1 x y s0 else s0 in
      let s2 := if sp2 then set_start2 x y s1 else s1 in
      let s3 := if ep1 then set_end1 x y s2 else s2 in
      if ep2 then set_end2 x y s3 else s3
    else s0
  else s.

(** What a pass does between [BeginScene] and [EndScene]. *)
Definition frame (c : Config) (i : Input) (s : State) : State :=
  edit c i (zoom c i s).

(** One pass of [while (HandleMessagePump(&fElapsedTime))]: [None] when the
    loop is left through the ESC key. *)
Definition pass (c : Config) (i : Input) (s : State) : option State :=
  if down i VK_ESCAPE then None
  else if BeginScene i then Some (frame c i s)
  else Some s.

(** Successive rendered frames. *)
Fixpoint run (c : Config) (frames : list Input) (s : State) : State :=
  match frames with
  | [] => s
  | i :: rest => run c rest (frame c i s)
  end.

End Program.

Arguments Config F : clear implicits.
Arguments State F : clear implicits.
Arguments Input F : clear implicits.

(** ** The Geometry Fitter as the specification words it *)

Inductive Mode : Type := Contain | Cover.

Definition is_cover (m : Mode) : bool :=
  match m with Cover => true | Contain => false end.

Definition is_contain (m : Mode) : bool :=
  match m with Contain => true | Cover => false end.

Section Vocabulary.
Context {F : Type} {A : Arith F}.
Local Open Scope fl_scope.

(** [Fit(mode, rect, viewportWidth, viewportHeight)], written from the
    specification's algorithm paragraph, to be compared with
    [PutScreenOverCoordinates]. *)
Definition Fit (mode : Mode) (top left bottom right : F)
    (viewportWidth viewportHeight : F) : Fitted F :=
  let viewportAspect := viewportWidth / viewportHeight in
  let width := right - left in
  let height := bottom - top in
  let rectAspect := width / height in
  if (is_cover mode && (viewportAspect <? rectAspect))
     || (is_contain mode && (rectAspect <? viewportAspect))
  then
    let offset := (width / viewportAspect - height) / of_int 2 in
    mkFitted (width / viewportWidth) (top - offset) left (bottom + offset) right
  else
    let offset := (height * viewportAspect - width) / of_int 2 in
    mkFitted (height / viewportHeight) top (left - offset) bottom (right + offset).

(** The right operands of the divisions that a call of
    [PutScreenOverCoordinates] executes, in program order. *)
Definition PutScreenOverCoordinates_divisors (coords_in_dimensions : bool)
    (top left bottom right screen_width screen_height : F) : list F :=
  let screen_aspect := screen_width / screen_height in
  let width := right - left in
  let height := bottom - top in
  let aspect := width / height in
  screen_height :: height ::
  if (coords_in_dimensions && (screen_aspect <? aspect))
     || (negb coords_in_dimensions && (aspect <? screen_aspect))
  then [screen_aspect; of_int 2; screen_width]
  else [of_int 2; screen_height].

(** Some corner-select key is held. *)
Definition corner_key (i : Input F) : bool :=
  down80 i VK_Q || down80 i VK_W || down80 i VK_E || down80 i VK_R.

(** The start box and the end box in the fitter's parameter order, and the
    view. *)
Definition start_box (s : State F) : F * F * F * F :=
  (start_y1 s, start_x1 s, start_y2 s, start_x2 s).
Definition end_box (s : State F) : F * F * F * F :=
  (end_y1 s, end_x1 s, end_y2 s, end_x2 s).
Definition view_box (s : State F) : F * F * F * F :=
  (top s, left s, bottom s, right s).
Definition rates (s : State F) : F * F * F * F :=
  (dy1 s, dx1 s, dy2 s, dx2 s).
Definition fitted_box (f : Fitted F) : F * F * F * F :=
  (out_top f, out_left f, out_bottom f, out_right f).

(** The fitter with [coords_in_dimensions = false] on a box, at the
    screen's size. *)
Definition contain_fit (c : Config F) (b : F * F * F * F) : Fitted F :=
  let '(t, l, b, r) := b in
  PutScreenOverCoordinates false t l b r (screen_width c) (screen_height c).

(** The fitter with [coords_in_dimensions = true] on the whole image. *)
Definition cover_fit_image (c : Config F) : Fitted F :=
  PutScreenOverCoordinates true (of_int 0) (of_int 0)
    (image_height c) (image_width c) (screen_width c) (screen_height c).

(** The rate vector of two fitted boxes. *)
Definition rates_between (fs fe : Fitted F) : F * F * F * F :=
  ((out_top fe - out_top fs) / time, (out_left fe - out_left fs) / time,
   (out_bottom fe - out_bottom fs) / time, (out_right fe - out_right fs) / time).

(** The factor the speed keys apply to the elapsed time; 1 without a
    speed key. *)
Definition multiplier (i : Input F) : F :=
  if down i VK_1 then literal 15 100
  else if down i VK_2 then literal 25 100
  else if down i VK_3 then literal 5 10
  else if down i VK_4 then literal 6 10
  else if down i VK_5 then literal 8 10
  else if down i VK_6 then literal 12 10
  else if down i VK_7 then literal 15 10
  else if down i VK_8 then literal 18 10
  else if down i VK_9 then literal 20 10
  else if down i VK_0 then literal 25 10
  else literal 1 1.

(** The sum of [elapsedTime * speedMultiplier] over a run of frames. *)
Fixpoint normalized_time (frames : list (Input F)) : F :=
  match frames with
  | [] => of_int 0
  | i :: rest => fElapsedTime i * multiplier i + normalized_time rest
  end.

(** The space bar is held and no corner-select key is. *)
Definition zooming (i : Input F) : bool :=
  down i VK_SPACE && negb (corner_key i).

(** Neither the space bar nor a corner-select key is held. *)
Definition idle (i : Input F) : bool :=
  negb (down i VK_SPACE) && negb (corner_key i).

(** ** Concrete inputs *)

(** A keyboard on which exactly the keys of [ks] are down: [GetKeyState]
    answers 0xFF80 (as a 16-bit signed value) for them. *)
Definition keyboard (ks : list Z) (k : Z) : Z :=
  if existsb (Z.eqb k) ks then (-128)%Z else 0%Z.

Definition sample (dt : Z) (ks : list Z) (x y : Z) : Input F :=
  {| fElapsedTime := of_int dt;
     GetKeyState := keyboard ks;
     pt_x := x; pt_y := y;
     BeginScene := true |}.

(** A 4000x3000 image on a 1920x1080 display. *)
Definition cfg : Config F :=
  {| screen_width := of_int 1920; screen_height := of_int 1080;
     image_width := of_int 4000; image_height := of_int 3000 |}.

(** Frames of the scenarios: nothing held; the space bar held for one
    second; a corner-select key held; Q and the mouse button held with the
    pointer at (100,100). *)
Definition nothing_held : Input F := sample 1 [] 0 0.
Definition space_held : Input F := sample 1 [VK_SPACE] 0 0.
Definition W_held : Input F := sample 1 [VK_W] 0 0.
Definition Q_click : Input F := sample 1 [VK_Q; VK_LBUTTON] 100 100.

(** Ten seconds at speed key 9 (twice as fast), then ten seconds with no
    speed key: thirty units of normalized time. *)
Definition two_steps : list (Input F) :=
  [sample 10 [VK_SPACE; VK_9] 0 0; sample 10 [VK_SPACE] 0 0].

(** The state after the first frame, and the state one second into the
    animation. *)
Definition settled : State F := frame cfg nothing_held (init cfg).
Definition paused : State F := frame cfg space_held settled.

End Vocabulary.

(** Tolerance on binary32 results, measured on the rationals. *)
Definition within (eps : Q) (x : B32.t) (q : Q) : bool :=
  B32.is_finite x && Qle_bool (Qabs (B32.to_Q x - q)) eps.

Definition nonfinite (x : B32.t) : bool := negb (B32.is_finite x).

(** The scale and two opposite edges of a fit are infinite or NaN. *)
Definition nonfinite_result (f : Fitted B32.t) : bool :=
  nonfinite (scaling f)
  && ((nonfinite (out_top f) && nonfinite (out_bottom f))
      || (nonfinite (out_left f) && nonfinite (out_right f))).

(** The scale and the four edges of a fit are all finite. *)
Definition finite_result (f : Fitted B32.t) : bool :=
  B32.is_finite (scaling f)
  && B32.is_finite (out_top f) && B32.is_finite (out_left f)
  && B32.is_finite (out_bottom f) && B32.is_finite (out_right f).

(** Some division of a call has a zero for divisor. *)
Definition divides_by_zero (divisors : list B32.t) : bool :=
  existsb B32.is_zero divisors.

(** The fitter and its divisors on integer coordinates, in binary32. *)
Definition fit_at (coords_in_dimensions : bool) (t l b r w h : Z)
  : Fitted B32.t :=
  PutScreenOverCoordinates coords_in_dimensions
    (of_int t) (of_int l) (of_int b) (of_int r) (of_int w) (of_int h).

Definition divisors_at (coords_in_dimensions : bool) (t l b r w h : Z)
  : list B32.t :=
  PutScreenOverCoordinates_divisors coords_in_dimensions
    (of_int t) (of_int l) (of_int b) (of_int r) (of_int w) (of_int h).

(** The tolerance of the scenarios on binary32 results. *)
Definition tolerance : Q := 1 # 1000.

(** ** The fitter with its divisions recorded *)

Section Tracing.
Context {F : Type} {A : Arith F}.
Local Open Scope fl_scope.

(** A division that also records its right operand. *)
Definition divide (a b : F) (divisors : list F) : F * list F :=
  (a / b, divisors ++ [b]).

(** [PutScreenOverCoordinates] (lines 172-196) with each [/] of the source
    performed by [divide], statement by statement: beside the result, the
    right operands of the divisions the call executes, in program order. *)
Definition PutScreenOverCoordinates_traced (coords_in_dimensions : bool)
    (top left bottom right screen_width screen_height : F)
  : Fitted F * list F :=
  let '(screen_aspect, ds) := divide screen_width screen_height [] in
  let width := right - left in
  let height := bottom - top in
  let '(aspect, ds) := divide width height ds in
  if (coords_in_dimensions && (screen_aspect <? aspect))
     || (negb coords_in_dimensions && (aspect <? screen_aspect))
  then
    let '(quotient, ds) := divide width screen_aspect ds in
    let '(offset, ds) := divide (quotient - height) (of_int 2) ds in
    let '(scaling, ds) := divide width screen_width ds in
    ({| scaling := scaling;
        out_top := top - offset; out_left := left;
        out_bottom := bottom + offset; out_right := right |}, ds)
  else
    let '(offset, ds) :=
      divide (height * screen_aspect - width) (of_int 2) ds in
    let '(scaling, ds) := divide height screen_height ds in
    ({| scaling := scaling;
        out_top := top; out_left := left - offset;
        out_bottom := bottom; out_right := right + offset |}, ds).

(** What the frames of a run advance the animation by: [fElapsedTime]
    after the speed keys (lines 309-318). *)
Definition steps (frames : list (Input F)) : list F :=
  map (fun i => speed i (fElapsedTime i)) frames.

(** One of the four statements of lines 321-324 ([left += dx1 *
    fElapsedTime] and the like), over successive frames. *)
Fixpoint track (rate : F) (ts : list F) (v : F) : F :=
  match ts with
  | [] => v
  | t :: rest => track rate rest (v + rate * t)
  end.

End Tracing.

(** ** Binary32 values as rational numbers *)

(** Where a rational [y] lies between the integers [m] and [m + 1], in
    the terms [SpecFloat] rounds with: on [m], below the middle, in the
    middle, above the middle. *)
Definition inbetween (m : Z) (l : location) (y : Q) : Prop :=
  match l with
  | loc_Exact => (y == inject_Z m)%Q
  | loc_Inexact Lt => (inject_Z m < y /\ y < inject_Z m + (1 # 2))%Q
  | loc_Inexact Eq => (y == inject_Z m + (1 # 2))%Q
  | loc_Inexact Gt => (inject_Z m + (1 # 2) < y /\ y < inject_Z m + 1)%Q
  end.

(** The unit in the last place of a binary32 value: the weight of the
    last bit of its significand, and that of the smallest subnormal for a
    zero. *)
Definition ulp (x : B32.t) : Q :=
  match x with
  | S754_finite _ _ e => (2 ^ e)%Q
  | S754_zero _ => (2 ^ (emin B32.prec B32.emax))%Q
  | _ => 0%Q
  end.

(** The sign bit as a factor. *)
Definition sgn (s : bool) : Q := if s then (- (1))%Q else 1%Q.

(** The middle of two binary32 values, as a rational number. *)
Definition center (a b : B32.t) : Q := ((B32.to_Q a + B32.to_Q b) * (1 # 2))%Q.

(** The four edges of a fit are finite. *)
Definition finite_edges (f : Fitted B32.t) : bool :=
  B32.is_finite (out_top f) && B32.is_finite (out_left f)
  && B32.is_finite (out_bottom f) && B32.is_finite (out_right f).

(** The exact sum of binary32 values. *)
Fixpoint sum_Q (ts : list B32.t) : Q :=
  match ts with
  | [] => 0%Q
  | t :: rest => (B32.to_Q t + sum_Q rest)%Q
  end.

(** The exact sum of [elapsedTime * speedMultiplier] over a run of frames,
    each product as the program computes it. *)
Definition elapsed (frames : list (Input B32.t)) : Q := sum_Q (steps frames).

(** The rounding a coordinate can accumulate along [track]: one unit in
    the last place of each increment and of each new value. *)
Fixpoint drift (rate : B32.t) (ts : list B32.t) (v : B32.t) : Q :=
  match ts with
  | [] => 0%Q
  | t :: rest =>
      (ulp (rate * t)%fl + ulp (v + rate * t)%fl
       + drift rate rest (v + rate * t)%fl)%Q
  end.

(** How far from [finish] a coordinate can end that starts at [start] and
    runs for 30 units of time at the rate the program computes: the
    drift of the frames, and the rounding of the rate. *)
Definition slack (start finish : B32.t) (ts : list B32.t) : Q :=
  let d := (finish - start)%fl in
  let rate := (d / time)%fl in
  (drift rate ts start + 30 * ulp rate + ulp d)%Q.

(** The rounding the offset of the fitter's second branch can carry when
    the two aspect ratios are equal. *)
Definition offset_slack (width height aspect : B32.t) : Q :=
  let p := (height * aspect)%fl in
  let d := (p - width)%fl in
  let offset := (d / of_int 2)%fl in
  (ulp offset
   + (ulp d + ulp p + Qabs (B32.to_Q height) * ulp aspect) * (1 # 2))%Q.

(** A frame with the space bar held, of a given duration in seconds. *)
Definition held_for (n : Z) (d : positive) : Input B32.t :=
  {| fElapsedTime := literal n d;
     GetKeyState := keyboard [VK_SPACE];
     pt_x := 0%Z; pt_y := 0%Z;
     BeginScene := true |}.

(** Thirty seconds at 64 frames a second, and thirty seconds in frames of
    2^-30 s. *)
Definition sixty_four_a_second : list (Input B32.t) :=
  repeat (held_for 1 64) 1920.
Definition brief : list (Input B32.t) :=
  repeat (held_for 1 1073741824) (N.to_nat 32212254720).

(** ** The rest of the loop: drawing, the message pump, a lost device *)

(** The vertex structure of the drawing code (lines 333-336). *)
Module Vertex.
Record t (F : Type) : Type := make {
  x : F; y : F; z : F; rhw : F;
  u : F; v : F
}.
End Vertex.

(** [WM_QUIT], from the platform headers. *)
Definition WM_QUIT : Z := 0x0012.

(** [D3DERR_DEVICENOTRESET], from the Direct3D headers. *)
Definition D3DERR_DEVICENOTRESET : Z := 0x88760869.

(** The two results [WaitForLostDevice] returns. *)
Inductive HRESULT : Type := S_OK | E_FAIL.

(** What a call of [HandleMessagePump] meets: the messages [PeekMessage]
    hands out until the queue is empty, the tick count read when the static
    [last_frame_time] is initialised (on the first call only), and the tick
    count read after the messages. *)
Record PumpCall : Type := mkPumpCall {
  messages : list Z;
  tick_init : Z;
  tick : Z
}.

(** What a call of [HandleMessagePump] leaves: its return value, the
    messages it dispatched, what it stored through [pElapsedTime] (if
    anything) and the static [last_frame_time]. *)
Record Pumped (F : Type) : Type := mkPumped {
  pump_result : bool;
  pump_dispatched : list Z;
  pump_elapsed : option F;
  pump_static : F
}.

(** One turn of the loop of [WaitForLostDevice]: the pump call, the answer
    of [TestCooperativeLevel] and whether [Reset] succeeds. *)
Record Attempt : Type := mkAttempt {
  pump_call : PumpCall;
  TestCooperativeLevel : Z;
  Reset_succeeds : bool
}.

(** The [while (PeekMessage ...)] loop (lines 78-85): the messages
    dispatched, and whether the loop was left through [WM_QUIT]. *)
Fixpoint dispatch (queue : list Z) : list Z * bool :=
  match queue with
  | [] => ([], false)
  | m :: rest =>
      if (m =? WM_QUIT)%Z then ([m], true)
      else let '(d, quit) := dispatch rest in (m :: d, quit)
  end.

Section Platform.
Context {F : Type} {A : Arith F}.
Local Open Scope fl_scope.

(** The six vertices of the two triangles (lines 336-339). *)
Definition vertices (c : Config F) (s : State F) : list (Vertex.t F) :=
  let screen_width := screen_width c in
  let screen_height := screen_height c in
  let image_width := image_width c in
  let image_height := image_height c in
  let zero := literal 0 1 in
  let half := literal 5 10 in
  let one := of_int 1 in
  [ Vertex.make zero screen_height half one
      (left s / image_width) (bottom s / image_height);
    Vertex.make zero zero half one
      (left s / image_width) (top s / image_height);
    Vertex.make screen_width zero half one
      (right s / image_width) (top s / image_height);
    Vertex.make zero screen_height half one
      (left s / image_width) (bottom s / image_height);
    Vertex.make screen_width zero half one
      (right s / image_width) (top s / image_height);
    Vertex.make screen_width screen_height half one
      (right s / image_width) (bottom s / image_height) ].

(** [GetTickCount() / 1000.0f]. *)
Definition seconds (ticks : Z) : F := of_int ticks / literal 1000 1.

(** [HandleMessagePump] (lines 70-98).  [pElapsedTime] tells whether the
    pointer is not null; [last_frame_time] is [None] before the first
    call. *)
Definition HandleMessagePump (pElapsedTime : bool)
    (last_frame_time : option F) (call : PumpCall) : Pumped F :=
  let last_frame_time :=
    match last_frame_time with
    | Some t => t
    | None => seconds (tick_init call)
    end in
  let '(dispatched, quit) := dispatch (messages call) in
  if quit then mkPumped false dispatched None last_frame_time
  else
    let fTime := seconds (tick call) in
    if pElapsedTime
    then mkPumped true dispatched (Some (fTime - last_frame_time)) fTime
    else mkPumped true dispatched None fTime.

(** Successive calls [HandleMessagePump(&fElapsedTime)] of the main loop,
    up to the first that returns false: the elapsed times they store and
    the static they leave. *)
Fixpoint pump_loop (last_frame_time : option F) (calls : list PumpCall)
  : list F * option F :=
  match calls with
  | [] => ([], last_frame_time)
  | call :: rest =>
      let p := HandleMessagePump true last_frame_time call in
      if pump_result p then
        let '(times, final) := pump_loop (Some (pump_static p)) rest in
        (match pump_elapsed p with Some e => e :: times | None => times end,
         final)
      else ([], Some (pump_static p))
  end.

(** [WaitForLostDevice] (lines 123-140) along the turns of its loop: the
    result, [None] while the loop has not returned, and the static
    [last_frame_time] of the pump. *)
Fixpoint WaitForLostDevice (last_frame_time : option F) (turns : list Attempt)
  : option HRESULT * option F :=
  match turns with
  | [] => (None, last_frame_time)
  | a :: rest =>
      let p := HandleMessagePump false last_frame_time (pump_call a) in
      if pump_result p then
        if (D3DERR_DEVICENOTRESET =? TestCooperativeLevel a)%Z then
          (Some (if Reset_succeeds a then S_OK else E_FAIL),
           Some (pump_static p))
        else WaitForLostDevice (Some (pump_static p)) rest
      else (Some E_FAIL, Some (pump_static p))
  end.

(** The main loop (lines 282-412) over the passes the pump lets through.
    Each pass comes with what follows [Present]: [true] when it succeeded,
    or failed and both [WaitForLostDevice] and the reloading of the texture
    succeeded; [false] when the loop is left through one of the two
    [break]s of lines 406-410.  The loop is also left at the first pass
    with ESC down. *)
Fixpoint main_loop (c : Config F) (passes : list (Input F * bool))
    (s : State F) : State F :=
  match passes with
  | [] => s
  | (i, presented) :: rest =>
      match pass c i s with
      | None => s
      | Some s' => if presented then main_loop c rest s' else s'
      end
  end.

(** The image point a click selects (lines 377-390): the pointer scaled by
    the fit of the whole image and moved to its origin. *)
Definition clicked_x (c : Config F) (i : Input F) : F :=
  of_int (pt_x i) * scaling (cover_fit_image c) + out_left (cover_fit_image c).
Definition clicked_y (c : Config F) (i : Input F) : F :=
  of_int (pt_y i) * scaling (cover_fit_image c) + out_top (cover_fit_image c).

End Platform.

(** A pump call without messages at a tick count. *)
Definition quiet (ticks : Z) : PumpCall :=
  {| messages := []; tick_init := ticks; tick := ticks |}.

(** The differences of successive readings of the clock, from a first
    reading. *)
Section Gaps.
Context {F : Type} {A : Arith F}.
Local Open Scope fl_scope.

Fixpoint gaps (previous : F) (readings : list F) : list F :=
  match readings with
  | [] => []
  | r :: rest => (r - previous) :: gaps r rest
  end.

(** The static [last_frame_time] when a call of the pump reads the clock:
    the value stored, or the tick count read on the first call. *)
Definition last_time (last_frame_time : option F) (calls : list PumpCall) : F :=
  match last_frame_time, calls with
  | Some t, _ => t
  | None, call :: _ => seconds (tick_init call)
  | None, [] => of_int 0
  end.

End Gaps.

(** Two turns of waiting for a lost device: the device still lost
    (D3DERR_DEVICELOST), then ready to be reset. *)
Definition still_lost : Attempt :=
  {| pump_call := quiet 5000; TestCooperativeLevel := 0x88760868;
     Reset_succeeds := false |}.
Definition ready : Attempt :=
  {| pump_call := quiet 6000; TestCooperativeLevel := D3DERR_DEVICENOTRESET;
     Reset_succeeds := true |}.

(** * The laws of the program *)

Unset Implicit Arguments.

(** ** Laws that hold in every arithmetic *)

Section Laws.
Context {F : Type} {A : Arith F}.
Local Open Scope fl_scope.
Implicit Types (c : Config F) (i : Input F) (s : State F).

Ltac keys i :=
  destruct (down80 i VK_Q), (down80 i VK_W), (down80 i VK_E), (down80 i VK_R).

Lemma first_loop_zoom c i s : first_loop (zoom c i s) = first_loop s.
Proof.
  unfold zoom. destruct (down i VK_SPACE); [|reflexivity].
  destruct (initialized s); reflexivity.
Qed.

Lemma zoom_released c i s : down i VK_SPACE = false -> zoom c i s = s.
Proof. intros H. unfold zoom. now rewrite H. Qed.

Lemma zoom_armed c i s :
  down i VK_SPACE = true -> initialized s = true ->
  zoom c i s = advance (speed i (fElapsedTime i)) s.
Proof. intros H1 H2. unfold zoom. now rewrite H1, H2. Qed.

Lemma zoom_disarmed c i s :
  down i VK_SPACE = true -> initialized s = false ->
  zoom c i s = advance (speed i (fElapsedTime i)) (arm c s).
Proof. intros H1 H2. unfold zoom. now rewrite H1, H2. Qed.

Lemma edit_skipped c i s :
  first_loop s = false -> corner_key i = false -> edit c i s = s.
Proof.
  intros H1 H2. unfold edit, corner_key in *. rewrite H1.
  keys i; simpl in *; try discriminate. reflexivity.
Qed.

Lemma edit_entered c i s :
  first_loop s || corner_key i = true ->
  view_box (edit c i s) = fitted_box (cover_fit_image c)
  /\ initialized (edit c i s) = false
  /\ first_loop (edit c i s) = false.
Proof.
  intros H. unfold edit, corner_key in *.
  destruct (first_loop s); keys i; simpl in *; try discriminate;
    destruct (down i VK_LBUTTON); repeat split; reflexivity.
Qed.

Lemma rates_edit c i s : rates (edit c i s) = rates s.
Proof.
  unfold edit.
  destruct (first_loop s); keys i; simpl;
    try destruct (down i VK_LBUTTON); reflexivity.
Qed.

Lemma boxes_edit_no_click c i s :
  down i VK_LBUTTON = false ->
  start_box (edit c i s) = start_box s /\ end_box (edit c i s) = end_box s.
Proof.
  intros H. unfold edit. rewrite H.
  destruct (first_loop s); keys i; simpl; split; reflexivity.
Qed.

Lemma start1_edit_click c i s :
  down80 i VK_Q = true -> down i VK_LBUTTON = true ->
  start_x1 (edit c i s)
    = of_int (pt_x i) * scaling (cover_fit_image c) + out_left (cover_fit_image c)
  /\ start_y1 (edit c i s)
    = of_int (pt_y i) * scaling (cover_fit_image c) + out_top (cover_fit_image c).
Proof.
  intros H1 H2. unfold edit. rewrite H1, H2.
  destruct (first_loop s), (down80 i VK_W), (down80 i VK_E), (down80 i VK_R);
    simpl; split; reflexivity.
Qed.

Lemma frame_idle c i s :
  first_loop s = false -> idle i = true -> frame c i s = s.
Proof.
  intros H1 H2. unfold idle in H2. apply andb_prop in H2 as [H2 H3].
  apply negb_true_iff in H2, H3. unfold frame.
  rewrite (zoom_released c i s H2). now apply edit_skipped.
Qed.

Lemma run_idle c frames s :
  first_loop s = false -> Forall (fun i => idle i = true) frames ->
  run c frames s = s.
Proof.
  intros H1 H2. induction H2 as [|i rest Hi _ IH]; simpl; [reflexivity|].
  now rewrite (frame_idle c i s H1 Hi).
Qed.

Lemma frame_zooming_armed c i s :
  first_loop s = false -> initialized s = true -> zooming i = true ->
  frame c i s = advance (speed i (fElapsedTime i)) s.
Proof.
  intros H1 H2 H3. unfold zooming in H3. apply andb_prop in H3 as [H3 H4].
  apply negb_true_iff in H4. unfold frame.
  rewrite (zoom_armed c i s H3 H2). now apply edit_skipped.
Qed.

Lemma frame_zooming_disarmed c i s :
  first_loop s = false -> initialized s = false -> zooming i = true ->
  frame c i s = advance (speed i (fElapsedTime i)) (arm c s).
Proof.
  intros H1 H2 H3. unfold zooming in H3. apply andb_prop in H3 as [H3 H4].
  apply negb_true_iff in H4. unfold frame.
  rewrite (zoom_disarmed c i s H3 H2). now apply edit_skipped.
Qed.

(** C4. The fitter computes what the specification's algorithm says, for
    every rectangle and viewport: when (Cover and rectAspect >
    viewportAspect) or (Contain and rectAspect < viewportAspect) only top
    and bottom move, by offset = (width/viewportAspect - height)/2, and
    the scale is width/viewportWidth; otherwise only left and right move,
    by offset = (height*viewportAspect - width)/2, and the scale is
    height/viewportHeight.  Cover is [coords_in_dimensions = true]. *)
Theorem PutScreenOverCoordinates_is_Fit (mode : Mode)
    (top left bottom right viewportWidth viewportHeight : F) :
  PutScreenOverCoordinates (is_cover mode) top left bottom right
    viewportWidth viewportHeight
  = Fit mode top left bottom right viewportWidth viewportHeight.
Proof. destruct mode; reflexivity. Qed.

(** C10. On a frame where a corner-select key is held, or on the first
    frame, the view is overwritten with the fit of the whole image
    (0, 0, imageWidth, imageHeight) with [coords_in_dimensions = true],
    whatever the mouse button and the space bar do, and the animation is
    de-armed. *)
Theorem corner_key_resets_view c i s :
  first_loop s || corner_key i = true ->
  view_box (frame c i s) = fitted_box (cover_fit_image c)
  /\ initialized (frame c i s) = false.
Proof.
  intros H. unfold frame.
  destruct (edit_entered c i (zoom c i s)) as (Hv & Hi & _).
  - now rewrite first_loop_zoom.
  - now split.
Qed.

(** C8. A frame with a corner-select key held de-arms the animation, and
    the next frame with the space bar held, after any number of frames
    with no key held, computes the rate vector from the start and end
    boxes as the edit frame left them. *)
Theorem edit_rearms c (i_edit : Input F) (waiting : list (Input F))
    (i_run : Input F) s :
  corner_key i_edit = true ->
  Forall (fun i => idle i = true) waiting ->
  down i_run VK_SPACE = true ->
  let s1 := frame c i_edit s in
  initialized s1 = false
  /\ rates (frame c i_run (run c waiting s1))
     = rates_between (contain_fit c (start_box s1)) (contain_fit c (end_box s1)).
Proof.
  intros He Hw Hr s1.
  destruct (edit_entered c i_edit (zoom c i_edit s)) as (_ & Hi & Hf).
  { rewrite He. apply orb_true_r. }
  fold (frame c i_edit s) in Hi, Hf. fold s1 in Hi, Hf.
  split; [exact Hi|].
  rewrite (run_idle c waiting s1 Hf Hw). unfold frame.
  rewrite rates_edit, (zoom_disarmed c i_run s1 Hr Hi). reflexivity.
Qed.

Lemma armed_stays c i s :
  first_loop s = false -> initialized s = true -> corner_key i = false ->
  initialized (frame c i s) = true.
Proof.
  intros Hf Hi Hk. unfold frame. destruct (down i VK_SPACE) eqn:Hs.
  - rewrite (zoom_armed c i s Hs Hi), edit_skipped by assumption. exact Hi.
  - rewrite (zoom_released c i s Hs), edit_skipped by assumption. exact Hi.
Qed.

(** C1, as the code has it.  Releasing the space bar changes nothing: the
    armed flag, the rates and the view stay as they are, and the next
    frame with the space bar held goes on from the paused view with the
    same rates.  After the first frame, an armed animation stays armed on
    every frame on which no corner-select key is held. *)
Theorem release_keeps_armed c (i_release i_again : Input F) s :
  first_loop s = false -> initialized s = true ->
  idle i_release = true -> zooming i_again = true ->
  frame c i_release s = s
  /\ frame c i_again (frame c i_release s)
     = advance (speed i_again (fElapsedTime i_again)) s
  /\ (forall i, corner_key i = false -> initialized (frame c i s) = true).
Proof.
  intros Hf Hi Hr Ha. rewrite (frame_idle c i_release s Hf Hr).
  split; [reflexivity|]. split; [now apply frame_zooming_armed|].
  intros i Hk. now apply armed_stays.
Qed.

(** C2, as the code has it.  A frame with the space bar held and the mouse
    button up fits the stored start and end boxes themselves when the
    animation is not armed: each is replaced by its fit with
    [coords_in_dimensions = false].  When the animation is armed already
    they are left as they are. *)
Theorem arming_fits_stored_boxes c i s :
  down i VK_SPACE = true -> down i VK_LBUTTON = false ->
  start_box (frame c i s)
    = (if initialized s then start_box s
       else fitted_box (contain_fit c (start_box s)))
  /\ end_box (frame c i s)
    = (if initialized s then end_box s
       else fitted_box (contain_fit c (end_box s))).
Proof.
  intros Hs Hb. unfold frame.
  destruct (boxes_edit_no_click c i (zoom c i s) Hb) as [-> ->].
  destruct (initialized s) eqn:Hi.
  - rewrite (zoom_armed c i s Hs Hi). split; reflexivity.
  - rewrite (zoom_disarmed c i s Hs Hi). split; reflexivity.
Qed.

End Laws.

(** ** The fitter and the animation, coordinate by coordinate *)

Section Tracks.
Context {F : Type} {A : Arith F}.
Local Open Scope fl_scope.
Implicit Types (c : Config F) (i : Input F) (s : State F).

(** The traced fitter returns what the fitter returns, and records the
    divisors listed by [PutScreenOverCoordinates_divisors]. *)
Lemma traced_agrees (coords_in_dimensions : bool)
    (top left bottom right screen_width screen_height : F) :
  PutScreenOverCoordinates_traced coords_in_dimensions
    top left bottom right screen_width screen_height
  = (PutScreenOverCoordinates coords_in_dimensions
       top left bottom right screen_width screen_height,
     PutScreenOverCoordinates_divisors coords_in_dimensions
       top left bottom right screen_width screen_height).
Proof.
  unfold PutScreenOverCoordinates_traced, PutScreenOverCoordinates,
    PutScreenOverCoordinates_divisors, divide.
  cbn [app].
  destruct ((coords_in_dimensions
             && (screen_width / screen_height
                 <? (right - left) / (bottom - top)))
            || (negb coords_in_dimensions
                && ((right - left) / (bottom - top)
                    <? screen_width / screen_height)));
    reflexivity.
Qed.

(** Each call moves one pair of opposite edges by an offset, down and up,
    and returns the other pair as given. *)
Lemma fit_shape (coords_in_dimensions : bool)
    (top left bottom right screen_width screen_height : F) :
  let f := PutScreenOverCoordinates coords_in_dimensions
             top left bottom right screen_width screen_height in
  exists offset : F,
    fitted_box f = (top - offset, left, bottom + offset, right)
    \/ fitted_box f = (top, left - offset, bottom, right + offset).
Proof.
  cbv zeta. unfold PutScreenOverCoordinates, fitted_box.
  match goal with |- context [if ?b then _ else _] => destruct b end;
    cbn [out_top out_left out_bottom out_right]; eexists;
    [left|right]; reflexivity.
Qed.

Lemma advance_flags (t : F) s :
  first_loop (advance t s) = first_loop s
  /\ initialized (advance t s) = initialized s.
Proof. split; reflexivity. Qed.

(** While the animation runs, each coordinate of the view follows its own
    rate. *)
Lemma run_tracks c frames : forall s,
  first_loop s = false -> initialized s = true ->
  Forall (fun i => zooming i = true) frames ->
  top (run c frames s) = track (dy1 s) (steps frames) (top s)
  /\ left (run c frames s) = track (dx1 s) (steps frames) (left s)
  /\ bottom (run c frames s) = track (dy2 s) (steps frames) (bottom s)
  /\ right (run c frames s) = track (dx2 s) (steps frames) (right s).
Proof.
  induction frames as [|i rest IH]; intros s Hf Hi Hz.
  - repeat split; reflexivity.
  - inversion Hz as [|? ? Hz1 Hz2]; subst.
    cbn [run steps map track].
    rewrite (frame_zooming_armed c i s Hf Hi Hz1).
    exact (IH (advance (speed i (fElapsedTime i)) s) Hf Hi Hz2).
Qed.

(** The same from a state that the first frame arms. *)
Lemma run_tracks_disarmed c frames s :
  first_loop s = false -> initialized s = false ->
  Forall (fun i => zooming i = true) frames -> frames <> [] ->
  let fs := contain_fit c (start_box s) in
  let fe := contain_fit c (end_box s) in
  top (run c frames s)
  = track ((out_top fe - out_top fs) / time) (steps frames) (out_top fs)
  /\ left (run c frames s)
     = track ((out_left fe - out_left fs) / time) (steps frames) (out_left fs)
  /\ bottom (run c frames s)
     = track ((out_bottom fe - out_bottom fs) / time) (steps frames)
         (out_bottom fs)
  /\ right (run c frames s)
     = track ((out_right fe - out_right fs) / time) (steps frames)
         (out_right fs).
Proof.
  intros Hf Hi Hz Hn. destruct frames as [|i rest]; [contradiction|].
  inversion Hz as [|? ? Hz1 Hz2]; subst.
  cbn [run]. rewrite (frame_zooming_disarmed c i s Hf Hi Hz1).
  exact (run_tracks c rest (advance (speed i (fElapsedTime i)) (arm c s))
           Hf eq_refl Hz2).
Qed.

(** A frame that changes nothing changes nothing however often it
    comes. *)
Lemma run_repeat_fixed c i s (n : nat) :
  frame c i s = s -> run c (repeat i n) s = s.
Proof.
  intros H. induction n as [|n IH]; [reflexivity|].
  cbn [repeat run]. now rewrite H.
Qed.

Lemma Forall_repeat (P : Input F -> Prop) i (n : nat) :
  P i -> Forall P (repeat i n).
Proof.
  intros H. apply Forall_forall. intros x Hx.
  now rewrite (repeat_spec n i x Hx).
Qed.

End Tracks.
(** ** Rounding errors of binary32 operations *)

Module Rounding.
Local Open Scope Q_scope.

Lemma two_nz : ~ (2 : Q) == 0.
Proof. discriminate. Qed.

Lemma pow2_pos (e : Z) : 0 < 2 ^ e.
Proof. apply Qpower_0_lt. reflexivity. Qed.

Lemma pow2_add (a b : Z) : 2 ^ (a + b) == 2 ^ a * 2 ^ b.
Proof. apply Qpower_plus, two_nz. Qed.

Lemma pow2_sub (a b : Z) : 2 ^ (a - b) == 2 ^ a * 2 ^ (- b).
Proof. unfold Z.sub. apply pow2_add. Qed.

Lemma pow2_cancel (a : Z) : 2 ^ a * 2 ^ (- a) == 1.
Proof. rewrite <- pow2_add, Z.add_opp_diag_r. reflexivity. Qed.

Lemma pow2_le (a b : Z) : (a <= b)%Z -> 2 ^ a <= 2 ^ b.
Proof. intros H. apply Qpower_le_compat_l; [exact H|discriminate]. Qed.

Lemma pow2_Z (n : Z) : (0 <= n)%Z -> inject_Z (2 ^ n) == 2 ^ n.
Proof. intros H. now rewrite Zpower_Qpower. Qed.

Lemma pow2_succ (a : Z) : 2 ^ (a + 1) == 2 * 2 ^ a.
Proof. rewrite pow2_add. change (2 ^ 1) with 2. ring. Qed.

Lemma inject_xO (p : positive) : inject_Z (Zpos p~0) == 2 * inject_Z (Zpos p).
Proof. rewrite Pos2Z.inj_xO, inject_Z_mult. reflexivity. Qed.

Lemma inject_xI (p : positive) :
  inject_Z (Zpos p~1) == 2 * inject_Z (Zpos p) + 1.
Proof. rewrite Pos2Z.inj_xI, inject_Z_plus, inject_Z_mult. reflexivity. Qed.

(** One shift to the right halves the value and keeps the position. *)
Lemma shr_1_inbetween (mrs : shr_record) (y : Q) :
  (0 <= shr_m mrs)%Z ->
  inbetween (shr_m mrs) (loc_of_shr_record mrs) y ->
  (0 <= shr_m (shr_1 mrs))%Z
  /\ inbetween (shr_m (shr_1 mrs)) (loc_of_shr_record (shr_1 mrs))
       (y * (1 # 2)).
Proof.
  destruct mrs as [m r s]. cbn [shr_m]. intros Hm H.
  destruct m as [|[p|p|]|p]; try (exfalso; lia);
    destruct r, s; cbn in *;
    rewrite ?inject_xO, ?inject_xI in H;
    (split; [lia|]);
    change (inject_Z 0) with 0 in *;
    change (inject_Z 1) with 1 in *;
    try lra.
Qed.

Lemma inbetween_ext (m : Z) (l : location) (y y' : Q) :
  y == y' -> inbetween m l y -> inbetween m l y'.
Proof. intros E. destruct l as [|[]]; cbn; rewrite E; auto. Qed.

(** [n] shifts divide the value by [2 ^ n]. *)
Lemma iter_shr_inbetween (n : positive) : forall (mrs : shr_record) (y : Q),
  (0 <= shr_m mrs)%Z ->
  inbetween (shr_m mrs) (loc_of_shr_record mrs) y ->
  (0 <= shr_m (iter_pos shr_1 n mrs))%Z
  /\ inbetween (shr_m (iter_pos shr_1 n mrs))
       (loc_of_shr_record (iter_pos shr_1 n mrs)) (y * 2 ^ (- Zpos n)).
Proof.
  induction n as [n IH|n IH|]; intros mrs y Hm H; cbn [iter_pos].
  - destruct (shr_1_inbetween mrs y Hm H) as [H1 H2].
    destruct (IH _ _ H1 H2) as [H3 H4].
    destruct (IH _ _ H3 H4) as [H5 H6].
    split; [exact H5|]. refine (inbetween_ext _ _ _ _ _ H6).
    replace (- Zpos n~1)%Z with (- 1 + (- Zpos n + - Zpos n))%Z by lia.
    rewrite !pow2_add. change (2 ^ (-1)) with (1 # 2). ring.
  - destruct (IH _ _ Hm H) as [H3 H4].
    destruct (IH _ _ H3 H4) as [H5 H6].
    split; [exact H5|]. refine (inbetween_ext _ _ _ _ _ H6).
    replace (- Zpos n~0)%Z with (- Zpos n + - Zpos n)%Z by lia.
    rewrite !pow2_add. ring.
  - exact (shr_1_inbetween mrs y Hm H).
Qed.

Lemma loc_of_record_of (m : Z) (l : location) :
  shr_m (shr_record_of_loc m l) = m
  /\ loc_of_shr_record (shr_record_of_loc m l) = l.
Proof. destruct l as [|[]]; split; reflexivity. Qed.

(** [shr]: the value is kept, at the exponent moved up by the shift. *)
Lemma shr_inbetween (m : Z) (l : location) (e n : Z) (x : Q) :
  (0 <= m)%Z ->
  inbetween m l (x * 2 ^ (- e)) ->
  let mrs' := fst (shr (shr_record_of_loc m l) e n) in
  let e' := snd (shr (shr_record_of_loc m l) e n) in
  e' = (e + Z.max n 0)%Z
  /\ (0 <= shr_m mrs')%Z
  /\ inbetween (shr_m mrs') (loc_of_shr_record mrs') (x * 2 ^ (- e'))
  /\ ((n <= 0)%Z -> shr_m mrs' = m /\ loc_of_shr_record mrs' = l).
Proof.
  intros Hm H. destruct (loc_of_record_of m l) as [E1 E2].
  destruct n as [|n|n]; cbn [shr fst snd].
  - rewrite Z.add_0_r, E1, E2. repeat split; assumption.
  - split; [lia|].
    destruct (iter_shr_inbetween n (shr_record_of_loc m l) (x * 2 ^ (- e)))
      as [H1 H2]; [now rewrite E1|now rewrite E1, E2|].
    split; [exact H1|]. split; [|lia].
    refine (inbetween_ext _ _ _ _ _ H2).
    replace (- (e + Zpos n))%Z with (- e + - Zpos n)%Z by lia.
    rewrite pow2_add. ring.
  - rewrite E1, E2. replace (e + Z.max (Z.neg n) 0)%Z with e by lia.
    repeat split; assumption.
Qed.

(** Rounding to nearest, ties to even, moves by a half at most. *)
Lemma round_nearest_even_spec (m : Z) (l : location) (y : Q) :
  inbetween m l y ->
  (round_nearest_even m l = m \/ round_nearest_even m l = (m + 1)%Z)
  /\ Qabs (inject_Z (round_nearest_even m l) - y) <= 1 # 2
  /\ (l = loc_Exact -> round_nearest_even m l = m).
Proof.
  intros H. destruct l as [|[]]; cbn [inbetween round_nearest_even] in *.
  - split; [now left|]. split; [|reflexivity].
    apply Qabs_Qle_condition. split; lra.
  - split; [|split; [|discriminate]].
    + destruct (Z.even m); [now left|now right].
    + destruct (Z.even m); rewrite ?inject_Z_plus; apply Qabs_Qle_condition;
        change (inject_Z 1) with 1; split; lra.
  - split; [now left|]. split; [|discriminate].
    apply Qabs_Qle_condition. split; lra.
  - split; [now right|]. split; [|discriminate].
    rewrite inject_Z_plus. change (inject_Z 1) with 1.
    apply Qabs_Qle_condition. split; lra.
Qed.

Lemma inbetween_bounds (m : Z) (l : location) (y : Q) :
  inbetween m l y -> inject_Z m <= y /\ y < inject_Z m + 1.
Proof. destruct l as [|[]]; cbn [inbetween]; intros H; split; lra. Qed.

Lemma digits_size (p : positive) : digits2_pos p = Pos.size p.
Proof. induction p; cbn; congruence. Qed.

Lemma digits_lower (p : positive) :
  2 ^ (Zpos (digits2_pos p) - 1) <= inject_Z (Zpos p).
Proof.
  rewrite digits_size. pose proof (Pos.size_le p) as H.
  assert (Hz : (2 ^ (Zpos (Pos.size p) - 1) <= Zpos p)%Z).
  { apply Pos2Z.pos_le_pos in H. rewrite Pos2Z.inj_pow in H.
    replace (Zpos (Pos.size p)) with (Z.succ (Zpos (Pos.size p) - 1)) in H
      by lia.
    rewrite Z.pow_succ_r in H by lia. lia. }
  rewrite <- pow2_Z by lia. now rewrite <- Zle_Qle.
Qed.

Lemma inject_ge_1 (m : Z) : 0 < inject_Z m -> (1 <= m)%Z.
Proof.
  intros H. change 0 with (inject_Z 0) in H. rewrite <- Zlt_Qlt in H. lia.
Qed.

(** A shift by fewer places than the digits leaves a mantissa that is not
    zero. *)
Lemma shift_keeps (m : Z) (l : location) (e k : Z) (x : Q) :
  (1 <= m)%Z -> inbetween m l (x * 2 ^ (- e)) ->
  (k <= Zdigits2 m - 1)%Z ->
  (1 <= shr_m (fst (shr (shr_record_of_loc m l) e k)))%Z.
Proof.
  intros Hm H Hk.
  destruct (shr_inbetween m l e k x ltac:(lia) H) as (E & H0 & H1 & H2).
  destruct (Z_le_gt_dec k 0) as [Hle|Hgt].
  - destruct (H2 Hle) as [-> _]. exact Hm.
  - apply inject_ge_1. rewrite E in H1.
    apply inbetween_bounds in H1 as [_ H1].
    apply inbetween_bounds in H as [H _].
    destruct m as [|p|p]; try lia. cbn [Zdigits2] in Hk.
    pose proof (digits_lower p) as Hd.
    assert (Hp : 1 <= 2 ^ (Zpos (digits2_pos p) - 1 - k)).
    { change 1 with (2 ^ 0). apply pow2_le. lia. }
    rewrite pow2_sub in Hp.
    replace (- (e + Z.max k 0))%Z with (- e + - k)%Z in H1 by lia.
    rewrite pow2_add in H1.
    pose proof (pow2_pos (- k)) as Hk0.
    set (a := 2 ^ (- k)) in *. set (b := 2 ^ (Zpos (digits2_pos p) - 1)) in *.
    set (c := 2 ^ (- e)) in *. clearbody a b c.
    assert (b * a <= x * c * a) by (apply Qmult_le_compat_r; lra).
    lra.
Qed.

Lemma fexp_eq (e : Z) :
  fexp B32.prec B32.emax e = Z.max (e - 24) (-149).
Proof. reflexivity. Qed.

Lemma scaled_abs (a x p : Q) (e : Z) :
  Qabs (a - x * 2 ^ (- e)) <= p -> Qabs (a * 2 ^ e - x) <= p * 2 ^ e.
Proof.
  intros H. pose proof (pow2_pos e) as He.
  assert (E : a * 2 ^ e - x == (a - x * 2 ^ (- e)) * 2 ^ e).
  { assert (C := pow2_cancel e). set (u := 2 ^ e) in *.
    set (v := 2 ^ (- e)) in *. clearbody u v.
    transitivity (a * u - x * (u * v)); [rewrite C; ring|ring]. }
  rewrite E, Qabs_Qmult, (Qabs_pos (2 ^ e)) by lra.
  apply Qmult_le_compat_r; lra.
Qed.

(** The rounding step of every operation: the result is within one unit in
    the last place of the value rounded; a result of zero comes from a value
    of at most [2 ^ emin]. *)
Lemma round_aux_spec (s : bool) (m : Z) (l : location) (e : Z) (x : Q) :
  (0 <= m)%Z -> inbetween m l (x * 2 ^ (- e)) ->
  (0 < m)%Z \/ (e <= -149)%Z ->
  match binary_round_aux B32.prec B32.emax s m e l with
  | S754_finite s' m' e' =>
      s' = s /\ Qabs (inject_Z (Zpos m') * 2 ^ e' - x) <= 2 ^ e'
  | S754_zero s' => s' = s /\ Qabs x <= 2 ^ (-149)
  | S754_infinity s' => s' = s
  | S754_nan => False
  end.
Proof.
  intros Hm H Hme. unfold binary_round_aux, shr_fexp.
  set (k1 := (fexp B32.prec B32.emax (Zdigits2 m + e) - e)%Z).
  destruct (shr_inbetween m l e k1 x Hm H) as (E1 & M1 & I1 & K1).
  destruct (shr (shr_record_of_loc m l) e k1) as [mrs1 e1] eqn:S1.
  cbn [fst snd] in E1, M1, I1, K1.
  destruct (round_nearest_even_spec _ _ _ I1) as (R1 & R2 & _).
  set (rne := round_nearest_even (shr_m mrs1) (loc_of_shr_record mrs1)) in *.
  assert (Hrne : (0 <= rne)%Z) by lia.
  assert (I2 : inbetween rne loc_Exact (inject_Z rne * 2 ^ e1 * 2 ^ (- e1))).
  { cbn [inbetween]. rewrite <- Qmult_assoc, pow2_cancel. ring. }
  set (k2 := (fexp B32.prec B32.emax (Zdigits2 rne + e1) - e1)%Z).
  destruct (shr_inbetween rne loc_Exact e1 k2 _ Hrne I2) as (E2 & M2 & J2 & K2).
  destruct (shr (shr_record_of_loc rne loc_Exact) e1 k2) as [mrs2 e2] eqn:S2.
  cbn [fst snd] in E2, M2, J2, K2.
  (* the rounded mantissa against the value *)
  assert (A : Qabs (inject_Z rne * 2 ^ e1 - x) <= (1 # 2) * 2 ^ e1)
    by (apply scaled_abs; exact R2).
  (* the exponent after the first shift is not below emin *)
  assert (Hemin : (-149 <= e1)%Z).
  { unfold k1 in E1. rewrite fexp_eq in E1.
    destruct Hme as [Hpos|Hle]; [|destruct m as [|p|p]; cbn [Zdigits2] in E1; lia].
    destruct (Z_le_gt_dec k1 0) as [Hk|Hk]; unfold k1 in Hk;
      rewrite fexp_eq in Hk; lia. }
  (* a rounded mantissa that is not zero survives the second shift *)
  assert (Keep : (1 <= rne)%Z -> (1 <= shr_m mrs2)%Z).
  { intros Hr.
    change mrs2 with (fst (mrs2, e2)). rewrite <- S2.
    apply (shift_keeps rne loc_Exact e1 k2 _ Hr I2).
    unfold k2. rewrite fexp_eq.
    destruct rne as [|p|p]; try lia. cbn [Zdigits2].
    pose proof (Pos2Z.is_pos (digits2_pos p)). lia. }
  destruct (shr_m mrs2) as [|m2|m2] eqn:Em2.
  - (* zero *)
    split; [reflexivity|].
    assert (Hr0 : rne = 0%Z) by lia.
    assert (He1 : (e1 <= -149)%Z).
    { assert (Hme' : (0 < m)%Z \/ (m = 0 /\ e <= -149)%Z) by lia.
      destruct Hme' as [Hpos|[Hm0 Hle]].
      - destruct (Z_le_gt_dec k1 0) as [Hk|Hk].
        + destruct (K1 Hk) as [Hm1 _]. lia.
        + destruct (Z_le_gt_dec e1 (-149)) as [?|Hgt]; [assumption|].
          exfalso.
          assert (1 <= shr_m mrs1)%Z; [|lia].
          change mrs1 with (fst (mrs1, e1)). rewrite <- S1.
          apply (shift_keeps m l e k1 x ltac:(lia) H).
          unfold k1 in *. rewrite fexp_eq in *. lia.
      - unfold k1 in E1. rewrite fexp_eq, Hm0 in E1.
        cbn [Zdigits2] in E1. lia. }
    rewrite Hr0 in A. change (inject_Z 0) with 0 in A.
    assert (E0 : 0 * 2 ^ e1 - x == - x) by ring.
    rewrite E0, Qabs_opp in A.
    pose proof (pow2_le e1 (-149) He1). pose proof (pow2_pos e1). lra.
  - (* a mantissa *)
    destruct (Z.leb e2 (B32.emax - B32.prec)); [|reflexivity].
    split; [reflexivity|].
    destruct (Z_le_gt_dec k2 0) as [Hk|Hk].
    + destruct (K2 Hk) as [Hm2 _]. try rewrite Em2 in Hm2.
      replace e2 with e1 by lia. rewrite Hm2.
      pose proof (pow2_pos e1). lra.
    + try rewrite Em2 in J2. apply inbetween_bounds in J2 as [J2 J3].
      replace (- e2)%Z with (- e1 + - k2)%Z in J2, J3 by lia.
      rewrite pow2_add in J2, J3.
      assert (C := pow2_cancel e1).
      assert (P2 : 2 ^ e2 == 2 ^ e1 * 2 ^ k2).
      { replace e2 with (e1 + k2)%Z by lia. apply pow2_add. }
      assert (Ck := pow2_cancel k2).
      (* integrality *)
      assert (Z1 : (rne + 1 <= (Zpos m2 + 1) * 2 ^ k2)%Z).
      { assert (Q1 : inject_Z rne < inject_Z ((Zpos m2 + 1) * 2 ^ k2)).
        { rewrite inject_Z_mult, inject_Z_plus, pow2_Z by lia.
          change (inject_Z 1) with 1.
          pose proof (pow2_pos k2). pose proof (pow2_pos (- k2)).
          set (u := 2 ^ e1) in *. set (v := 2 ^ (- e1)) in *.
          set (a := 2 ^ k2) in *. set (b := 2 ^ (- k2)) in *.
          clearbody u v a b.
          assert (T : inject_Z rne == inject_Z rne * u * (v * b) * a).
          { transitivity (inject_Z rne * (u * v) * (a * b)); [|ring].
            rewrite C, Ck. ring. }
          rewrite T. apply Qmult_lt_compat_r; lra. }
        rewrite <- Zlt_Qlt in Q1. lia. }
      assert (Q2 : inject_Z rne + 1 <= (inject_Z (Zpos m2) + 1) * 2 ^ k2).
      { rewrite Zle_Qle in Z1.
        rewrite inject_Z_plus, inject_Z_mult, inject_Z_plus, pow2_Z in Z1
          by lia.
        exact Z1. }
      assert (Q3 : inject_Z (Zpos m2) * 2 ^ k2 <= inject_Z rne).
      { pose proof (pow2_pos k2). pose proof (pow2_pos (- k2)).
        set (u := 2 ^ e1) in *. set (v := 2 ^ (- e1)) in *.
        set (a := 2 ^ k2) in *. set (b := 2 ^ (- k2)) in *.
        clearbody u v a b.
        assert (T : inject_Z rne == inject_Z rne * u * (v * b) * a).
        { transitivity (inject_Z rne * (u * v) * (a * b)); [|ring].
          rewrite C, Ck. ring. }
        rewrite T. apply Qmult_le_compat_r; lra. }
      rewrite P2. apply Qabs_Qle_condition.
      apply Qabs_Qle_condition in A.
      pose proof (pow2_pos e1). pose proof (pow2_pos k2).
      assert (1 <= 2 ^ k2).
      { change 1 with (2 ^ 0). apply pow2_le. lia. }
      set (u := 2 ^ e1) in *. set (a := 2 ^ k2) in *.
      set (r := inject_Z rne) in *. set (q := inject_Z (Zpos m2)) in *.
      clearbody u a r q. clear - A Q2 Q3 H0 H1 H2.
      assert (q * a * u <= r * u) by (apply Qmult_le_compat_r; lra).
      assert ((r + 1) * u <= (q + 1) * a * u)
        by (apply Qmult_le_compat_r; lra).
      assert (u <= a * u) by nra.
      split; lra.
  - lia.
Qed.

(** *** Values *)

Lemma sgn_abs (s : bool) (a : Q) : Qabs (sgn s * a) == Qabs a.
Proof.
  destruct s; unfold sgn.
  - setoid_replace (- (1) * a) with (- a) by ring. apply Qabs_opp.
  - now setoid_replace (1 * a) with a by ring.
Qed.

Lemma sgn_xorb (a b : bool) : sgn (xorb a b) == sgn a * sgn b.
Proof. destruct a, b; reflexivity. Qed.

Lemma iter_xO (m d : positive) :
  Zpos (Pos.iter xO m d) = (Zpos m * 2 ^ Zpos d)%Z.
Proof.
  induction d as [|d IH] using Pos.peano_ind.
  - cbn [Pos.iter]. rewrite Pos2Z.inj_xO. lia.
  - rewrite Pos.iter_succ, Pos2Z.inj_xO, IH, Pos2Z.inj_succ, Z.pow_succ_r
      by lia. ring.
Qed.

Lemma to_Q_finite (s : bool) (m : positive) (e : Z) :
  B32.to_Q (S754_finite s m e) == sgn s * (inject_Z (Zpos m) * 2 ^ e).
Proof.
  assert (V : match e with
              | Zneg p => Zpos m # Pos.shiftl 1 (Npos p)
              | _ => inject_Z (Zpos m * 2 ^ e)
              end == inject_Z (Zpos m) * 2 ^ e).
  { destruct e as [|p|p].
    - rewrite inject_Z_mult. reflexivity.
    - rewrite inject_Z_mult, pow2_Z by lia. reflexivity.
    - rewrite Qmake_Qdiv. cbn [Pos.shiftl].
      rewrite iter_xO, Z.mul_1_l, pow2_Z by lia.
      change (Zneg p) with (- Zpos p)%Z. rewrite Qpower_opp. reflexivity. }
  unfold B32.to_Q. destruct s; unfold sgn; rewrite V; ring.
Qed.

Lemma to_Q_zero (s : bool) : B32.to_Q (S754_zero s) = 0.
Proof. reflexivity. Qed.

Lemma ulp_nonneg (x : B32.t) : 0 <= ulp x.
Proof.
  destruct x; cbn [ulp]; try discriminate; apply Qlt_le_weak, pow2_pos.
Qed.

Lemma shl_align_spec (mx : positive) (ex ex' : Z) :
  inject_Z (Zpos (fst (shl_align mx ex ex'))) * 2 ^ snd (shl_align mx ex ex')
  == inject_Z (Zpos mx) * 2 ^ ex.
Proof.
  unfold shl_align. destruct (ex' - ex)%Z as [|d|d] eqn:E; cbn [fst snd];
    try reflexivity.
  rewrite iter_xO, inject_Z_mult, pow2_Z by lia.
  replace ex with (Zpos d + ex')%Z by lia. rewrite pow2_add. ring.
Qed.

Lemma shl_align_min (mx : positive) (ex ez : Z) :
  (ez <= ex)%Z ->
  inject_Z (Zpos (fst (shl_align mx ex ez))) * 2 ^ ez
  == inject_Z (Zpos mx) * 2 ^ ex.
Proof.
  intros H. rewrite <- (shl_align_spec mx ex ez).
  unfold shl_align. destruct (ez - ex)%Z as [|d|d] eqn:E; cbn [fst snd];
    try reflexivity; try lia.
  replace ez with ex by lia. reflexivity.
Qed.

Lemma binary_round_spec (s : bool) (p : positive) (e : Z) :
  match binary_round B32.prec B32.emax s p e with
  | S754_finite s' m' e' =>
      s' = s
      /\ Qabs (inject_Z (Zpos m') * 2 ^ e' - inject_Z (Zpos p) * 2 ^ e)
         <= 2 ^ e'
  | S754_zero s' => s' = s /\ Qabs (inject_Z (Zpos p) * 2 ^ e) <= 2 ^ (-149)
  | S754_infinity s' => s' = s
  | S754_nan => False
  end.
Proof.
  unfold binary_round.
  pose proof (shl_align_spec p e
                (fexp B32.prec B32.emax (Zpos (digits2_pos p) + e))) as V.
  destruct (shl_align p e (fexp B32.prec B32.emax (Zpos (digits2_pos p) + e)))
    as [mz ez]. cbn [fst snd] in V.
  pose proof (round_aux_spec s (Zpos mz) loc_Exact ez
                (inject_Z (Zpos p) * 2 ^ e)) as R.
  destruct (binary_round_aux B32.prec B32.emax s (Zpos mz) ez loc_Exact);
    apply R; try lia; cbn [inbetween]; rewrite <- V, <- Qmult_assoc,
    pow2_cancel; ring.
Qed.

Lemma inject_cond_Zopp (s : bool) (a : Z) :
  inject_Z (cond_Zopp s a) == sgn s * inject_Z a.
Proof.
  destruct s; unfold cond_Zopp, sgn; [rewrite inject_Z_opp|]; ring.
Qed.

(** The value of [binary_normalize]. *)
Lemma binary_normalize_spec (M e : Z) :
  let r := binary_normalize B32.prec B32.emax M e false in
  B32.is_finite r = true ->
  Qabs (B32.to_Q r - inject_Z M * 2 ^ e) <= ulp r.
Proof.
  cbv zeta. unfold binary_normalize. destruct M as [|p|p].
  - intros _. cbn [B32.to_Q ulp].
    setoid_replace (0 - inject_Z 0 * 2 ^ e) with 0 by (change (inject_Z 0) with 0; ring).
    apply Qlt_le_weak, pow2_pos.
  - pose proof (binary_round_spec false p e) as R.
    destruct (binary_round B32.prec B32.emax false p e) as [s'|s'| |s' m' e'];
      try discriminate; intros _.
    + destruct R as [_ R]. cbn [B32.to_Q ulp].
      setoid_replace (0 - inject_Z (Zpos p) * 2 ^ e)
        with (- (inject_Z (Zpos p) * 2 ^ e)) by ring.
      rewrite Qabs_opp. exact R.
    + destruct R as [-> R]. rewrite to_Q_finite. unfold sgn. cbn [ulp].
      setoid_replace (1 * (inject_Z (Zpos m') * 2 ^ e') - inject_Z (Zpos p) * 2 ^ e)
        with (inject_Z (Zpos m') * 2 ^ e' - inject_Z (Zpos p) * 2 ^ e) by ring.
      exact R.
  - pose proof (binary_round_spec true p e) as R.
    destruct (binary_round B32.prec B32.emax true p e) as [s'|s'| |s' m' e'];
      try discriminate; intros _.
    + destruct R as [_ R]. cbn [B32.to_Q ulp].
      rewrite <- Qabs_opp.
      setoid_replace (- (0 - inject_Z (Zneg p) * 2 ^ e))
        with (- (inject_Z (Zpos p) * 2 ^ e))
        by (change (Zneg p) with (- Zpos p)%Z; rewrite inject_Z_opp; ring).
      rewrite Qabs_opp. exact R.
    + destruct R as [-> R]. rewrite to_Q_finite. unfold sgn. cbn [ulp].
      rewrite <- Qabs_opp.
      setoid_replace (- (- (1) * (inject_Z (Zpos m') * 2 ^ e')
                         - inject_Z (Zneg p) * 2 ^ e))
        with (inject_Z (Zpos m') * 2 ^ e' - inject_Z (Zpos p) * 2 ^ e)
        by (change (Zneg p) with (- Zpos p)%Z; rewrite inject_Z_opp; ring).
      exact R.
Qed.

Lemma exact_within (r : B32.t) (q : Q) :
  B32.to_Q r == q -> Qabs (B32.to_Q r - q) <= ulp r.
Proof.
  intros E. setoid_replace (B32.to_Q r - q) with 0 by (rewrite E; ring).
  apply ulp_nonneg.
Qed.

Lemma finite_sum (sx sy : bool) (mx my : positive) (ex ey : Z) :
  let ez := Z.min ex ey in
  inject_Z (cond_Zopp sx (Zpos (fst (shl_align mx ex ez)))
            + cond_Zopp sy (Zpos (fst (shl_align my ey ez)))) * 2 ^ ez
  == B32.to_Q (S754_finite sx mx ex) + B32.to_Q (S754_finite sy my ey).
Proof.
  cbv zeta. rewrite !to_Q_finite, inject_Z_plus, !inject_cond_Zopp.
  rewrite <- (shl_align_min mx ex (Z.min ex ey)) by lia.
  rewrite <- (shl_align_min my ey (Z.min ex ey)) by lia.
  ring.
Qed.

Lemma finite_diff (sx sy : bool) (mx my : positive) (ex ey : Z) :
  let ez := Z.min ex ey in
  inject_Z (cond_Zopp sx (Zpos (fst (shl_align mx ex ez)))
            - cond_Zopp sy (Zpos (fst (shl_align my ey ez)))) * 2 ^ ez
  == B32.to_Q (S754_finite sx mx ex) - B32.to_Q (S754_finite sy my ey).
Proof.
  cbv zeta. unfold Z.sub. rewrite !to_Q_finite, inject_Z_plus, inject_Z_opp, !inject_cond_Zopp.
  rewrite <- (shl_align_min mx ex (Z.min ex ey)) by lia.
  rewrite <- (shl_align_min my ey (Z.min ex ey)) by lia.
  ring.
Qed.

Lemma to_Q_negb (s : bool) (m : positive) (e : Z) :
  B32.to_Q (S754_finite (negb s) m e) == - B32.to_Q (S754_finite s m e).
Proof. rewrite !to_Q_finite. destruct s; unfold sgn; cbn [negb]; ring. Qed.

(** One rounding of a sum: the result is within one unit in its last place
    of the exact sum. *)
Lemma add_error (x y : B32.t) :
  B32.is_finite (x + y)%fl = true ->
  Qabs (B32.to_Q (x + y)%fl - (B32.to_Q x + B32.to_Q y)) <= ulp (x + y)%fl.
Proof.
  cbn [add b32_arith].
  destruct x as [sx|sx| |sx mx ex], y as [sy|sy| |sy my ey];
    cbn [SFadd]; try discriminate; intros H.
  - destruct sx, sy; apply exact_within; cbn [B32.to_Q]; ring.
  - apply exact_within. rewrite to_Q_zero. ring.
  - destruct sx, sy; discriminate.
  - apply exact_within. rewrite to_Q_zero. ring.
  - rewrite <- finite_sum. apply binary_normalize_spec. exact H.
Qed.

Lemma sub_error (x y : B32.t) :
  B32.is_finite (x - y)%fl = true ->
  Qabs (B32.to_Q (x - y)%fl - (B32.to_Q x - B32.to_Q y)) <= ulp (x - y)%fl.
Proof.
  cbn [sub b32_arith].
  destruct x as [sx|sx| |sx mx ex], y as [sy|sy| |sy my ey];
    cbn [SFsub]; try discriminate; intros H.
  - destruct sx, sy; apply exact_within; cbn [B32.to_Q]; ring.
  - apply exact_within. rewrite to_Q_negb, to_Q_zero. ring.
  - destruct sx, sy; discriminate.
  - apply exact_within. rewrite to_Q_zero. ring.
  - rewrite <- finite_diff. apply binary_normalize_spec. exact H.
Qed.

Lemma mul_error (x y : B32.t) :
  B32.is_finite (x * y)%fl = true ->
  Qabs (B32.to_Q (x * y)%fl - B32.to_Q x * B32.to_Q y) <= ulp (x * y)%fl.
Proof.
  cbn [mul b32_arith].
  destruct x as [sx|sx| |sx mx ex], y as [sy|sy| |sy my ey];
    cbn [SFmul]; try discriminate; intros H;
    try (apply exact_within; rewrite ?to_Q_zero; cbn [B32.to_Q]; ring).
  pose proof (round_aux_spec (xorb sx sy) (Zpos (mx * my)) loc_Exact (ex + ey)
                (inject_Z (Zpos (mx * my)) * 2 ^ (ex + ey))) as R.
  assert (V : B32.to_Q (S754_finite sx mx ex) * B32.to_Q (S754_finite sy my ey)
              == sgn (xorb sx sy) * (inject_Z (Zpos (mx * my)) * 2 ^ (ex + ey))).
  { rewrite !to_Q_finite, sgn_xorb, Pos2Z.inj_mul, inject_Z_mult, pow2_add.
    ring. }
  rewrite V.
  destruct (binary_round_aux B32.prec B32.emax (xorb sx sy) (Zpos (mx * my))
              (ex + ey) loc_Exact) as [s'|s'| |s' m' e']; try discriminate.
  - destruct R as [_ R]; try lia.
    { cbn [inbetween]. rewrite <- Qmult_assoc, pow2_cancel. ring. }
    cbn [B32.to_Q ulp].
    setoid_replace (0 - sgn (xorb sx sy)
                        * (inject_Z (Zpos (mx * my)) * 2 ^ (ex + ey)))
      with (sgn (xorb sx sy)
            * - (inject_Z (Zpos (mx * my)) * 2 ^ (ex + ey))) by ring.
    rewrite sgn_abs, Qabs_opp. exact R.
  - destruct R as [-> R]; try lia.
    { cbn [inbetween]. rewrite <- Qmult_assoc, pow2_cancel. ring. }
    rewrite to_Q_finite. cbn [ulp].
    setoid_replace (sgn (xorb sx sy) * (inject_Z (Zpos m') * 2 ^ e')
                    - sgn (xorb sx sy)
                      * (inject_Z (Zpos (mx * my)) * 2 ^ (ex + ey)))
      with (sgn (xorb sx sy)
            * (inject_Z (Zpos m') * 2 ^ e'
               - inject_Z (Zpos (mx * my)) * 2 ^ (ex + ey))) by ring.
    rewrite sgn_abs. exact R.
Qed.

(** *** Division *)

Lemma digits_upper (p : positive) :
  inject_Z (Zpos p) < 2 ^ Zpos (digits2_pos p).
Proof.
  rewrite digits_size, <- pow2_Z by lia. rewrite <- Zlt_Qlt.
  change 2%Z with (Zpos 2). rewrite <- Pos2Z.inj_pow.
  apply Pos2Z.pos_lt_pos, Pos.size_gt.
Qed.

Lemma new_location_spec (m2 r q : Z) :
  (0 < m2)%Z -> (0 <= r < m2)%Z ->
  inbetween q (new_location m2 r) (inject_Z q + inject_Z r / inject_Z m2).
Proof.
  intros Hm Hr.
  assert (M : 0 < inject_Z m2) by (change 0 with (inject_Z 0); now rewrite <- Zlt_Qlt).
  assert (Lt2 : (2 * r < m2)%Z -> inject_Z r / inject_Z m2 < 1 # 2).
  { intros H. apply Qlt_shift_div_r; [exact M|].
    rewrite Zlt_Qlt, inject_Z_mult in H. change (inject_Z 2) with 2 in H. lra. }
  assert (Gt2 : (m2 < 2 * r)%Z -> (1 # 2) < inject_Z r / inject_Z m2).
  { intros H. apply Qlt_shift_div_l; [exact M|].
    rewrite Zlt_Qlt, inject_Z_mult in H. change (inject_Z 2) with 2 in H. lra. }
  assert (Eq2 : (2 * r = m2)%Z -> inject_Z r / inject_Z m2 == 1 # 2).
  { intros H. rewrite <- H, inject_Z_mult. change (inject_Z 2) with 2.
    assert (R : ~ inject_Z r == 0).
    { change 0 with (inject_Z 0). rewrite inject_Z_injective. lia. }
    field. exact R. }
  assert (Pos : (0 < r)%Z -> 0 < inject_Z r / inject_Z m2).
  { intros H. apply Qlt_shift_div_l; [exact M|].
    rewrite Zlt_Qlt in H. change (inject_Z 0) with 0 in H. lra. }
  assert (One : inject_Z r / inject_Z m2 < 1).
  { apply Qlt_shift_div_r; [exact M|].
    destruct Hr as [_ Hr]. rewrite Zlt_Qlt in Hr. lra. }
  unfold new_location, new_location_even, new_location_odd.
  destruct (Z.even m2) eqn:Ev.
  - destruct (Z.eqb_spec r 0) as [->|N].
    + cbn [inbetween]. unfold Qdiv. change (inject_Z 0) with 0. ring.
    + destruct (Z.compare_spec (2 * r) m2) as [E|L|G]; cbn [inbetween].
      * rewrite (Eq2 E). reflexivity.
      * specialize (Lt2 L). specialize (Pos ltac:(lia)). split; lra.
      * specialize (Gt2 G). split; lra.
  - assert (Od : (2 * r <> m2)%Z).
    { intros E. rewrite <- E, Z.even_mul in Ev. discriminate. }
    destruct (Z.eqb_spec r 0) as [->|N].
    + cbn [inbetween]. unfold Qdiv. change (inject_Z 0) with 0. ring.
    + destruct (Z.compare_spec (2 * r + 1) m2) as [E|L|G]; cbn [inbetween].
      * specialize (Lt2 ltac:(lia)). specialize (Pos ltac:(lia)). split; lra.
      * specialize (Lt2 ltac:(lia)). specialize (Pos ltac:(lia)). split; lra.
      * specialize (Gt2 ltac:(lia)). split; lra.
Qed.

Lemma div_core_spec (m1 m2 : positive) (e1 e2 : Z) :
  let '(q, e', l) :=
    SFdiv_core_binary B32.prec B32.emax (Zpos m1) e1 (Zpos m2) e2 in
  (0 <= q)%Z
  /\ inbetween q l
       (inject_Z (Zpos m1) * 2 ^ e1 / (inject_Z (Zpos m2) * 2 ^ e2)
        * 2 ^ (- e'))
  /\ ((0 < q)%Z \/ (e' <= -149)%Z).
Proof.
  unfold SFdiv_core_binary.
  set (k := (Zdigits2 (Zpos m1) + e1 - (Zdigits2 (Zpos m2) + e2))%Z).
  set (e' := Z.min (fexp B32.prec B32.emax k) (e1 - e2)).
  set (s := (e1 - e2 - e')%Z).
  assert (Hs : (0 <= s)%Z) by (unfold s, e'; lia).
  set (m' := match s with
             | Zpos _ => Z.shiftl (Zpos m1) s
             | Z0 => Zpos m1
             | Zneg _ => Z0
             end).
  assert (Hm' : m' = (Zpos m1 * 2 ^ s)%Z).
  { unfold m'. destruct s as [|p|p].
    - rewrite Z.pow_0_r. lia.
    - apply Z.shiftl_mul_pow2. lia.
    - lia. }
  assert (Qm' : inject_Z m' == inject_Z (Zpos m1) * 2 ^ s).
  { rewrite Hm', inject_Z_mult, pow2_Z by lia. reflexivity. }
  clearbody m'.
  pose proof (Z_div_mod m' (Zpos m2) ltac:(lia)) as D.
  destruct (Z.div_eucl m' (Zpos m2)) as [q r]. destruct D as [D R].
  assert (P2 : (0 < 2 ^ s)%Z) by (apply Z.pow_pos_nonneg; lia).
  assert (Hq : (0 <= q)%Z) by nia.
  split; [exact Hq|]. split.
  - refine (inbetween_ext _ _ _ _ _
              (new_location_spec (Zpos m2) r q ltac:(lia) R)).
    assert (N2 : ~ inject_Z (Zpos m2) == 0) by discriminate.
    assert (E : inject_Z (Zpos m1) * 2 ^ e1 / (inject_Z (Zpos m2) * 2 ^ e2)
                * 2 ^ (- e')
                == inject_Z m' / inject_Z (Zpos m2)).
    { rewrite Qm'. unfold s.
      replace (e1 - e2 - e')%Z with (e1 + (- e2 + - e'))%Z by lia.
      rewrite !pow2_add.
      pose proof (pow2_cancel e2) as C. pose proof (pow2_pos e2) as P.
      field_simplify_eq;
        [|repeat split; first [exact N2 | intros E0; lra]].
      setoid_replace (inject_Z (Zpos m1) * 2 ^ e1 * 2 ^ e2 * 2 ^ (- e')
                      * 2 ^ (- e2))
        with (inject_Z (Zpos m1) * 2 ^ e1 * 2 ^ (- e')
              * (2 ^ e2 * 2 ^ (- e2))) by ring.
      rewrite C. ring. }
    rewrite E, D, inject_Z_plus, inject_Z_mult. field. exact N2.
  - destruct (Z.eq_dec q 0) as [->|N]; [right|left; lia].
    destruct (Z_le_gt_dec e' (-149)) as [L|G]; [exact L|exfalso].
    assert (F : fexp B32.prec B32.emax k = (k - 24)%Z).
    { rewrite fexp_eq. unfold e' in G. rewrite fexp_eq in G. lia. }
    assert (S24 : (Zpos (digits2_pos m2) + 24 - Zpos (digits2_pos m1) <= s)%Z).
    { unfold s, e'. rewrite F. unfold k. cbn [Zdigits2]. lia. }
    pose proof (digits_lower m1) as L1. pose proof (digits_upper m2) as U2.
    assert (Lt : inject_Z m' < inject_Z (Zpos m2)).
    { rewrite <- Zlt_Qlt. lia. }
    rewrite Qm' in Lt.
    pose proof (pow2_le _ _ S24) as Ps.
    pose proof (pow2_pos (Zpos (digits2_pos m1) - 1)) as P1.
    assert (T : 2 ^ (Zpos (digits2_pos m1) - 1)
                * 2 ^ (Zpos (digits2_pos m2) + 24 - Zpos (digits2_pos m1))
                <= inject_Z (Zpos m1) * 2 ^ s).
    { pose proof (pow2_pos (Zpos (digits2_pos m2) + 24 - Zpos (digits2_pos m1))).
      apply Qle_trans with (2 ^ (Zpos (digits2_pos m1) - 1) * 2 ^ s).
      - apply Qmult_le_l; assumption.
      - apply Qmult_le_compat_r; [exact L1|]. apply Qlt_le_weak, pow2_pos. }
    rewrite <- pow2_add in T.
    pose proof (pow2_le (Zpos (digits2_pos m2))
                  (Zpos (digits2_pos m1) - 1
                   + (Zpos (digits2_pos m2) + 24 - Zpos (digits2_pos m1)))
                  ltac:(lia)).
    lra.
Qed.

Lemma div_error (x y : B32.t) :
  B32.is_finite y = true ->
  B32.is_finite (x / y)%fl = true ->
  Qabs (B32.to_Q (x / y)%fl - B32.to_Q x / B32.to_Q y) <= ulp (x / y)%fl.
Proof.
  cbn [div b32_arith]. unfold B32.fdiv.
  destruct x as [sx|sx| |sx mx ex], y as [sy|sy| |sy my ey];
    cbn [SFdiv]; intros Hy H; try discriminate Hy; try discriminate H;
    try (apply exact_within; rewrite !to_Q_zero; unfold Qdiv; ring).
  pose proof (div_core_spec mx my ex ey) as C.
  destruct (SFdiv_core_binary B32.prec B32.emax (Zpos mx) ex (Zpos my) ey)
    as [[q e'] l].
  destruct C as (Hq & Hin & Hz).
  pose proof (round_aux_spec (xorb sx sy) q l e' _ Hq Hin Hz) as R.
  assert (N : ~ 2 ^ ey == 0 /\ ~ inject_Z (Zpos my) == 0).
  { pose proof (pow2_pos ey). split; [intros E; lra|discriminate]. }
  assert (V : B32.to_Q (S754_finite sx mx ex) / B32.to_Q (S754_finite sy my ey)
              == sgn (xorb sx sy)
                 * (inject_Z (Zpos mx) * 2 ^ ex
                    / (inject_Z (Zpos my) * 2 ^ ey))).
  { rewrite !to_Q_finite, sgn_xorb.
    destruct sx, sy; unfold sgn; field; exact N. }
  rewrite V.
  destruct (binary_round_aux B32.prec B32.emax (xorb sx sy) q e' l)
    as [s'|s'| |s' m' e'']; try discriminate.
  - destruct R as [_ R]. cbn [B32.to_Q ulp].
    match goal with |- Qabs (0 - sgn ?s * ?a) <= _ =>
      setoid_replace (0 - sgn s * a) with (sgn s * - a) by ring end.
    rewrite sgn_abs, Qabs_opp. exact R.
  - destruct R as [-> R]. rewrite to_Q_finite. cbn [ulp].
    match goal with |- Qabs (sgn ?s * ?a - sgn ?s * ?b) <= _ =>
      setoid_replace (sgn s * a - sgn s * b) with (sgn s * (a - b)) by ring
    end.
    rewrite sgn_abs. exact R.
Qed.

(** A quotient of finite non-zero values is a zero only when the exact
    quotient is no larger than the smallest subnormal. *)
Lemma div_not_zero (x y : B32.t) :
  B32.is_finite x = true -> B32.is_zero x = false ->
  B32.is_finite y = true -> B32.is_zero y = false ->
  2 ^ (-149) < Qabs (B32.to_Q x / B32.to_Q y) ->
  B32.is_zero (x / y)%fl = false.
Proof.
  cbn [div b32_arith]. unfold B32.fdiv.
  destruct x as [sx|sx| |sx mx ex], y as [sy|sy| |sy my ey];
    try discriminate; intros _ _ _ _.
  cbn [SFdiv].
  pose proof (div_core_spec mx my ex ey) as C.
  destruct (SFdiv_core_binary B32.prec B32.emax (Zpos mx) ex (Zpos my) ey)
    as [[q e'] l].
  destruct C as (Hq & Hin & Hz).
  pose proof (round_aux_spec (xorb sx sy) q l e' _ Hq Hin Hz) as R.
  assert (N : ~ 2 ^ ey == 0 /\ ~ inject_Z (Zpos my) == 0).
  { pose proof (pow2_pos ey). split; [intros E; lra|discriminate]. }
  assert (V : B32.to_Q (S754_finite sx mx ex) / B32.to_Q (S754_finite sy my ey)
              == sgn (xorb sx sy)
                 * (inject_Z (Zpos mx) * 2 ^ ex
                    / (inject_Z (Zpos my) * 2 ^ ey))).
  { rewrite !to_Q_finite, sgn_xorb.
    destruct sx, sy; unfold sgn; field; exact N. }
  rewrite V, sgn_abs. intros Hlt.
  destruct (binary_round_aux B32.prec B32.emax (xorb sx sy) q e' l)
    as [s'|s'| |s' m' e'']; try reflexivity.
  destruct R as [_ R]. lra.
Qed.

End Rounding.

(** ** Finite results come from finite operands *)

Module Finite.
Local Open Scope fl_scope.

Lemma add_finite (x y : B32.t) :
  B32.is_finite (x + y) = true ->
  B32.is_finite x = true /\ B32.is_finite y = true.
Proof.
  destruct x as [sx|sx| |sx mx ex], y as [sy|sy| |sy my ey];
    try (intros _; split; reflexivity);
    cbn [add b32_arith SFadd]; try discriminate;
    destruct sx, sy; discriminate.
Qed.

Lemma sub_finite (x y : B32.t) :
  B32.is_finite (x - y) = true ->
  B32.is_finite x = true /\ B32.is_finite y = true.
Proof.
  destruct x as [sx|sx| |sx mx ex], y as [sy|sy| |sy my ey];
    try (intros _; split; reflexivity);
    cbn [sub b32_arith SFsub]; try discriminate;
    destruct sx, sy; discriminate.
Qed.

Lemma mul_finite (x y : B32.t) :
  B32.is_finite (x * y) = true ->
  B32.is_finite x = true /\ B32.is_finite y = true.
Proof.
  destruct x as [sx|sx| |sx mx ex], y as [sy|sy| |sy my ey];
    try (intros _; split; reflexivity);
    cbn [mul b32_arith SFmul]; discriminate.
Qed.

Lemma div_finite_l (x y : B32.t) :
  B32.is_finite (x / y) = true -> B32.is_finite x = true.
Proof.
  destruct x as [sx|sx| |sx mx ex]; try (intros _; reflexivity);
    destruct y as [sy|sy| |sy my ey];
    cbn [div b32_arith B32.fdiv SFdiv]; discriminate.
Qed.

(** A finite quotient by a zero does not exist. *)
Lemma div_finite_divisor (x y : B32.t) :
  B32.is_finite x = true -> B32.is_finite (x / y) = true ->
  B32.is_zero y = false.
Proof.
  destruct y as [sy|sy| |sy my ey]; try (intros _ _; reflexivity).
  destruct x as [sx|sx| |sx mx ex];
    cbn [div b32_arith B32.fdiv SFdiv]; discriminate.
Qed.

Lemma ltb_irrefl (x : B32.t) : (x <? x) = false.
Proof.
  destruct x as [sx|sx| |sx mx ex]; cbn [ltb b32_arith]; unfold SFltb;
    cbn [SFcompare]; try reflexivity.
  - destruct sx; reflexivity.
  - destruct sx; rewrite Z.compare_refl, Pos.compare_cont_refl; reflexivity.
Qed.

End Finite.
(** ** Laws of binary32 arithmetic *)

Module Binary32.
Local Open Scope fl_scope.
Implicit Types (x y : B32.t).

Lemma nonfinite_add_r x y : nonfinite y = true -> nonfinite (x + y) = true.
Proof.
  intros H. destruct y as [ |[]| | ]; try discriminate H;
    destruct x as [ |[]| | ]; reflexivity.
Qed.

Lemma nonfinite_sub_l x y : nonfinite x = true -> nonfinite (x - y) = true.
Proof.
  intros H. destruct x as [ |[]| | ]; try discriminate H;
    destruct y as [ |[]| | ]; reflexivity.
Qed.

Lemma nonfinite_sub_r x y : nonfinite y = true -> nonfinite (x - y) = true.
Proof.
  intros H. destruct y as [ |[]| | ]; try discriminate H;
    destruct x as [ |[]| | ]; reflexivity.
Qed.

Lemma nonfinite_mul_r x y : nonfinite y = true -> nonfinite (x * y) = true.
Proof.
  intros H. destruct y as [ |[]| | ]; try discriminate H;
    destruct x as [ |[]| | ]; reflexivity.
Qed.

Lemma nonfinite_div_l x y : nonfinite x = true -> nonfinite (x / y) = true.
Proof.
  intros H. destruct x as [ |[]| | ]; try discriminate H;
    destruct y as [ |[]| | ]; reflexivity.
Qed.

(** Whatever is divided by a zero, the quotient is infinite or NaN. *)
Lemma nonfinite_div_zero x y :
  B32.is_zero y = true -> nonfinite (x / y) = true.
Proof.
  intros H. destruct y; try discriminate H. destruct x; reflexivity.
Qed.

(** Nothing is above plus infinity or NaN. *)
Lemma nothing_above x y :
  nonfinite x = true -> (x <? of_int 0) = false -> (x <? y) = false.
Proof.
  intros H1 H2. destruct x as [ |[]| | ]; try discriminate H1;
    try discriminate H2; destruct y as [ |[]| |[]]; reflexivity.
Qed.

(** A quotient by plus zero of something not negative. *)
Lemma div_plus_zero x :
  (x <? of_int 0) = false ->
  nonfinite (x / S754_zero false) = true
  /\ (x / S754_zero false <? of_int 0) = false.
Proof.
  intros H. destruct x as [[]|[]| |[]]; try discriminate H; split; reflexivity.
Qed.

Lemma ltb_zero_sign (s : bool) x : (S754_zero s <? x) = (of_int 0 <? x).
Proof. destruct x as [ |[]| |[]]; reflexivity. Qed.

(** Zero divided by anything is a zero or NaN. *)
Lemma zero_div x y :
  B32.is_zero x = true ->
  B32.is_zero (x / y) = true \/ x / y = S754_nan.
Proof.
  intros H. destruct x; try discriminate H.
  destruct y; cbn; auto.
Qed.

Lemma nan_ltb x : (S754_nan <? x) = false.
Proof. reflexivity. Qed.

Lemma nonfinite_nan : nonfinite S754_nan = true.
Proof. reflexivity. Qed.

Lemma is_zero_0 : B32.is_zero (of_int 0) = true.
Proof. reflexivity. Qed.

Lemma div_nan_divisor x y :
  of_int 0 / y = S754_nan -> nonfinite (x / y) = true.
Proof.
  intros H. destruct y; try discriminate H; destruct x; reflexivity.
Qed.

Lemma zero_height_viewport (top left bottom right screen_width : B32.t) :
  (screen_width <? of_int 0) = false ->
  nonfinite_result
    (PutScreenOverCoordinates true top left bottom right
       screen_width (of_int 0)) = true.
Proof.
  intros Hw. change (@of_int B32.t _ 0) with (S754_zero false) in *.
  destruct (div_plus_zero screen_width Hw) as [Hn Hs].
  unfold PutScreenOverCoordinates.
  rewrite (nothing_above _ ((right - left) / (bottom - top)) Hn Hs).
  cbn [andb orb negb]. unfold nonfinite_result.
  cbn [scaling out_top out_left out_bottom out_right].
  assert (Hoff : nonfinite
            (((bottom - top) * (screen_width / S754_zero false)
              - (right - left)) / of_int 2) = true).
  { apply nonfinite_div_l, nonfinite_sub_l, nonfinite_mul_r, Hn. }
  rewrite (nonfinite_sub_r _ _ Hoff), (nonfinite_add_r _ _ Hoff).
  rewrite (nonfinite_div_zero (bottom - top) (S754_zero false) eq_refl).
  now rewrite orb_true_r.
Qed.

Lemma zero_width_viewport (top left bottom right screen_height : B32.t) :
  (of_int 0 <? (right - left) / (bottom - top)) = true ->
  nonfinite_result
    (PutScreenOverCoordinates true top left bottom right
       (of_int 0) screen_height) = true.
Proof.
  intros Ha. unfold PutScreenOverCoordinates, nonfinite_result.
  destruct (zero_div (of_int 0) screen_height is_zero_0) as [Hz|Hz].
  - destruct (of_int 0 / screen_height) as [sg| | | ] eqn:E;
      try discriminate Hz.
    rewrite ltb_zero_sign, Ha. cbn [andb orb negb].
    cbn [scaling out_top out_left out_bottom out_right].
    assert (Hoff : nonfinite
              (((right - left) / S754_zero sg - (bottom - top)) / of_int 2)
            = true).
    { apply nonfinite_div_l, nonfinite_sub_l, nonfinite_div_zero.
      reflexivity. }
    rewrite (nonfinite_sub_r _ _ Hoff), (nonfinite_add_r _ _ Hoff).
    now rewrite (nonfinite_div_zero (right - left) (of_int 0) is_zero_0).
  - rewrite Hz, nan_ltb. cbn [andb orb negb].
    cbn [scaling out_top out_left out_bottom out_right].
    assert (Hoff : nonfinite
              (((bottom - top) * S754_nan - (right - left)) / of_int 2)
            = true).
    { apply nonfinite_div_l, nonfinite_sub_l, nonfinite_mul_r.
      reflexivity. }
    rewrite (nonfinite_sub_r _ _ Hoff), (nonfinite_add_r _ _ Hoff).
    rewrite (div_nan_divisor (bottom - top) screen_height Hz).
    now rewrite orb_true_r.
Qed.

Lemma zero_height_divides (coords_in_dimensions : bool)
    (top left bottom right screen_width screen_height : B32.t) :
  B32.is_zero (bottom - top) || B32.is_zero screen_height = true ->
  divides_by_zero
    (PutScreenOverCoordinates_divisors coords_in_dimensions
       top left bottom right screen_width screen_height) = true.
Proof.
  intros H. unfold PutScreenOverCoordinates_divisors, divides_by_zero.
  cbn [existsb]. apply orb_true_iff in H as [H|H]; rewrite H.
  - now rewrite orb_true_l, orb_true_r.
  - reflexivity.
Qed.

(** With a rectangle height that is not zero, and screen dimensions that
    are finite, not zero and in a ratio above the smallest subnormal, no
    division of the fitter has a zero for divisor, whatever the
    rectangle's width. *)
Lemma sound_divisors (coords_in_dimensions : bool)
    (top left bottom right screen_width screen_height : B32.t) :
  B32.is_zero (bottom - top) = false ->
  B32.is_finite screen_width = true -> B32.is_zero screen_width = false ->
  B32.is_finite screen_height = true -> B32.is_zero screen_height = false ->
  (2 ^ (-149) < Qabs (B32.to_Q screen_width / B32.to_Q screen_height))%Q ->
  divides_by_zero
    (PutScreenOverCoordinates_divisors coords_in_dimensions
       top left bottom right screen_width screen_height) = false.
Proof.
  intros Hh Hfw Hzw Hfh Hzh Hq.
  pose proof (Rounding.div_not_zero _ _ Hfw Hzw Hfh Hzh Hq) as Ha.
  unfold PutScreenOverCoordinates_divisors, divides_by_zero.
  cbn [existsb]. rewrite Hzh, Hh. cbn [orb].
  match goal with |- context [if ?b then _ else _] => destruct b end;
    cbn [existsb]; rewrite ?Ha, ?Hzw, ?Hzh; reflexivity.
Qed.

(** C9, as the code has it.  The fitter checks nothing: the divisions it
    executes are those of [PutScreenOverCoordinates_traced], which
    returns the fitter's result.  It divides by zero whenever the
    rectangle's height or the viewport's height is zero.  With
    [coords_in_dimensions = true], a viewport of height zero (and a width
    that is not negative), and a viewport of width zero (and a rectangle
    of positive aspect), give a scale and two opposite edges that are
    infinite or NaN, for every rectangle.  No divisor is zero once the
    rectangle's height is not zero and the viewport's width and height
    are finite, not zero, and in a ratio above 2^-149, the smallest
    positive binary32 value, whatever the rectangle's width. *)
Theorem degenerate_inputs :
  (forall (coords_in_dimensions : bool)
          (top left bottom right screen_width screen_height : B32.t),
      PutScreenOverCoordinates_traced coords_in_dimensions
        top left bottom right screen_width screen_height
      = (PutScreenOverCoordinates coords_in_dimensions
           top left bottom right screen_width screen_height,
         PutScreenOverCoordinates_divisors coords_in_dimensions
           top left bottom right screen_width screen_height))
  /\ (forall (coords_in_dimensions : bool)
          (top left bottom right screen_width screen_height : B32.t),
      B32.is_zero (bottom - top) || B32.is_zero screen_height = true ->
      divides_by_zero
        (PutScreenOverCoordinates_divisors coords_in_dimensions
           top left bottom right screen_width screen_height) = true)
  /\ (forall top left bottom right screen_width : B32.t,
      (screen_width <? of_int 0) = false ->
      nonfinite_result
        (PutScreenOverCoordinates true top left bottom right
           screen_width (of_int 0)) = true)
  /\ (forall top left bottom right screen_height : B32.t,
      (of_int 0 <? (right - left) / (bottom - top)) = true ->
      nonfinite_result
        (PutScreenOverCoordinates true top left bottom right
           (of_int 0) screen_height) = true)
  /\ (forall (coords_in_dimensions : bool)
             (top left bottom right screen_width screen_height : B32.t),
      B32.is_zero (bottom - top) = false ->
      B32.is_finite screen_width = true ->
      B32.is_zero screen_width = false ->
      B32.is_finite screen_height = true ->
      B32.is_zero screen_height = false ->
      (2 ^ (-149)
       < Qabs (B32.to_Q screen_width / B32.to_Q screen_height))%Q ->
      divides_by_zero
        (PutScreenOverCoordinates_divisors coords_in_dimensions
           top left bottom right screen_width screen_height) = false).
Proof.
  split; [exact traced_agrees|].
  split; [exact zero_height_divides|].
  split; [exact zero_height_viewport|].
  split; [exact zero_width_viewport|].
  exact sound_divisors.
Qed.

Lemma degenerate_inputs_witness :
  snd (PutScreenOverCoordinates_traced false
         (of_int 0) (of_int 0) (of_int 0) (of_int 4000)
         (of_int 1920) (of_int 1080))
  = divisors_at false 0 0 0 4000 1920 1080
  /\ divides_by_zero (divisors_at false 0 0 0 4000 1920 1080) = true
  /\ nonfinite_result (fit_at true 0 0 3000 4000 1920 0) = true
  /\ nonfinite_result (fit_at true 0 0 3000 4000 0 1080) = true
  /\ divides_by_zero (divisors_at true 0 0 3000 0 1920 1080) = false.
Proof.
  destruct degenerate_inputs as (H0 & H1 & H2 & H3 & H4).
  split; [unfold divisors_at; rewrite H0; reflexivity|].
  split; [apply H1; reflexivity|].
  split; [apply H2; reflexivity|].
  split; [apply H3; reflexivity|].
  apply H4; reflexivity.
Defined.

(** C9 fails as stated.  A rectangle of width zero on a 1920x1080 viewport,
    and on a viewport of width zero, is fitted without any division by
    zero and with finite results, in both modes; a rectangle of height
    zero, and a viewport of height zero with
    [coords_in_dimensions = false], give finite results too.  And
    positive extents and viewport dimensions do not keep the divisors
    from zero: on a viewport 2^-100 wide and 2^100 high the screen's
    aspect ratio rounds to zero, the 1x1 rectangle is divided by it, and
    the scale is finite while top and bottom are infinite. *)
Lemma degenerate_rectangle_counterexample :
  (divides_by_zero (divisors_at true 0 0 3000 0 1920 1080) = false
   /\ finite_result (fit_at true 0 0 3000 0 1920 1080) = true)
  /\ (divides_by_zero (divisors_at false 0 0 3000 0 1920 1080) = false
      /\ finite_result (fit_at false 0 0 3000 0 1920 1080) = true)
  /\ (divides_by_zero (divisors_at true 0 0 3000 0 0 1080) = false
      /\ finite_result (fit_at true 0 0 3000 0 0 1080) = true)
  /\ (divides_by_zero (divisors_at false 0 0 3000 0 0 1080) = false
      /\ finite_result (fit_at false 0 0 3000 0 0 1080) = true)
  /\ finite_result (fit_at true 0 0 0 4000 1920 1080) = true
  /\ finite_result (fit_at false 0 0 0 4000 1920 1080) = true
  /\ finite_result (fit_at false 0 0 3000 4000 1920 0) = true
  /\ (let screen_width : B32.t := literal 1 (2 ^ 100) in
      let screen_height : B32.t := of_int (2 ^ 100) in
      ((of_int 0 <? screen_width) = true
       /\ (of_int 0 <? screen_height) = true
       /\ B32.is_finite screen_width = true
       /\ B32.is_finite screen_height = true)
      /\ divides_by_zero
           (PutScreenOverCoordinates_divisors true
              (of_int 0) (of_int 0) (of_int 1) (of_int 1)
              screen_width screen_height) = true
      /\ fitted_box
           (PutScreenOverCoordinates true
              (of_int 0) (of_int 0) (of_int 1) (of_int 1)
              screen_width screen_height)
         = (S754_infinity true, of_int 0, S754_infinity false, of_int 1)).
Proof. vm_compute. repeat split; reflexivity. Qed.

(** C3, as the code has it.  For a 4000x3000 image on a 1920x1080 viewport
    the fit of (0, 0, 4000, 3000) with [coords_in_dimensions = true] has
    scale 3000/1080 = 2.778 and origin (left, top) = (-666.67, 0), so a
    click at (100,100) with Q held sets start.left = -388.89 and
    start.top = 277.78, each within 0.001 in binary32. *)
Theorem start_top_left_scenario (i : Input B32.t) (s : State B32.t) :
  down80 i VK_Q = true -> down i VK_LBUTTON = true ->
  pt_x i = 100%Z -> pt_y i = 100%Z ->
  within tolerance (scaling (cover_fit_image cfg)) (25 # 9) = true
  /\ within tolerance (out_left (cover_fit_image cfg)) (-2000 # 3) = true
  /\ within tolerance (out_top (cover_fit_image cfg)) 0 = true
  /\ within tolerance (start_x1 (frame cfg i s)) (-3500 # 9) = true
  /\ within tolerance (start_y1 (frame cfg i s)) (2500 # 9) = true.
Proof.
  intros HQ HL Hx Hy. unfold frame.
  destruct (start1_edit_click cfg i (zoom cfg i s) HQ HL) as [-> ->].
  rewrite Hx, Hy. vm_compute. repeat split; reflexivity.
Qed.

Lemma start_top_left_scenario_witness :
  (down80 (Q_click : Input B32.t) VK_Q = true
   /\ down (Q_click : Input B32.t) VK_LBUTTON = true
   /\ pt_x (Q_click : Input B32.t) = 100%Z
   /\ pt_y (Q_click : Input B32.t) = 100%Z)
  /\ within tolerance (scaling (cover_fit_image cfg)) (25 # 9) = true
  /\ within tolerance (out_left (cover_fit_image cfg)) (-2000 # 3) = true
  /\ within tolerance (out_top (cover_fit_image cfg)) 0 = true
  /\ within tolerance (start_x1 (frame cfg Q_click settled)) (-3500 # 9) = true
  /\ within tolerance (start_y1 (frame cfg Q_click settled)) (2500 # 9) = true.
Proof.
  split; [repeat split; reflexivity|].
  apply (start_top_left_scenario Q_click settled); reflexivity.
Defined.

(** C3 fails as stated: the scale is not 2.083, the origin's left is not
    0, and the corner set is not (208.3, 208.3), each by more than 0.5. *)
Lemma start_top_left_counterexample :
  finite_result (cover_fit_image cfg) = true
  /\ within (1 # 2) (scaling (cover_fit_image cfg)) (2083 # 1000) = false
  /\ within (1 # 2) (out_left (cover_fit_image cfg)) 0 = false
  /\ B32.is_finite (start_x1 (frame cfg Q_click settled)) = true
  /\ within (1 # 2) (start_x1 (frame cfg Q_click settled)) (2083 # 10) = false
  /\ B32.is_finite (start_y1 (frame cfg Q_click settled)) = true
  /\ within (1 # 2) (start_y1 (frame cfg Q_click settled)) (2083 # 10) = false.
Proof. vm_compute. repeat split; reflexivity. Qed.

(** C1 fails as stated.  One second into the animation the view's top is
    362.5; after a frame with the space bar released the animation is
    still armed, and a further second with the space bar held puts the
    top at 350, where a restart from the fitted start box (top 375, rate
    -12.5 a second) would put it at 362.5. *)
Lemma release_counterexample :
  initialized (paused : State B32.t) = true
  /\ top (paused : State B32.t) = literal 725 2
  /\ initialized (frame cfg nothing_held paused : State B32.t) = true
  /\ top (frame cfg space_held (frame cfg nothing_held paused) : State B32.t)
     = of_int 350
  /\ start_y1 (frame cfg nothing_held paused : State B32.t) = of_int 375
  /\ dy1 (frame cfg nothing_held paused : State B32.t) = literal (-25) 2.
Proof. vm_compute. repeat split; reflexivity. Qed.

(** C2 fails as stated.  Before the space bar is first held the stored
    start box is (0, 0, 4000, 3000); the frame that arms the animation
    leaves it at top 375 and bottom 2625. *)
Lemma arming_counterexample :
  start_box (settled : State B32.t)
    = (of_int 0, of_int 0, of_int 3000, of_int 4000)
  /\ start_box (frame cfg space_held settled : State B32.t)
    = (of_int 375, of_int 0, of_int 2625, of_int 4000)
  /\ start_box (frame cfg space_held settled : State B32.t)
     <> start_box (settled : State B32.t).
Proof.
  vm_compute. repeat split; try reflexivity. discriminate.
Qed.

End Binary32.

(** ** The animation in binary32 *)

Module AnimationBounds.
Import Rounding Finite.
Local Open Scope Q_scope.

Lemma time_is_30 : B32.to_Q (@time B32.t _) == 30.
Proof. vm_compute. reflexivity. Qed.

Lemma track_finite (rate : B32.t) (ts : list B32.t) : forall v : B32.t,
  B32.is_finite (track rate ts v) = true -> B32.is_finite v = true.
Proof.
  induction ts as [|t rest IH]; intros v H; [exact H|].
  cbn [track] in H. exact (proj1 (add_finite _ _ (IH _ H))).
Qed.

Lemma track_rate_finite (rate : B32.t) (ts : list B32.t) (v : B32.t) :
  ts <> [] -> B32.is_finite (track rate ts v) = true ->
  B32.is_finite rate = true.
Proof.
  intros Hn H. destruct ts as [|t rest]; [contradiction|].
  cbn [track] in H.
  exact (proj1 (mul_finite _ _ (proj2 (add_finite _ _ (track_finite _ _ _ H))))).
Qed.

(** A coordinate that ends finite is within the drift of the line
    [v + rate * t]. *)
Lemma track_error (rate : B32.t) (ts : list B32.t) : forall v : B32.t,
  B32.is_finite (track rate ts v) = true ->
  Qabs (B32.to_Q (track rate ts v)
        - (B32.to_Q v + B32.to_Q rate * sum_Q ts))
  <= drift rate ts v.
Proof.
  induction ts as [|t rest IH]; intros v H.
  - cbn [track sum_Q drift].
    setoid_replace (B32.to_Q v - (B32.to_Q v + B32.to_Q rate * 0)) with 0
      by ring.
    discriminate.
  - cbn [track sum_Q drift] in *.
    pose proof (track_finite _ _ _ H) as Hv.
    pose proof (add_error _ _ Hv) as E1.
    pose proof (mul_error _ _ (proj2 (add_finite _ _ Hv))) as E2.
    specialize (IH _ H).
    set (T := B32.to_Q (track rate rest (v + rate * t)%fl)) in *.
    set (V' := B32.to_Q (v + rate * t)%fl) in *.
    set (P := B32.to_Q (rate * t)%fl) in *.
    set (RS := B32.to_Q rate * sum_Q rest) in *.
    set (RT := B32.to_Q rate * B32.to_Q t) in *.
    setoid_replace (T - (B32.to_Q v + B32.to_Q rate * (B32.to_Q t + sum_Q rest)))
      with ((T - (V' + RS)) + (V' - (B32.to_Q v + P)) + (P - RT))
      by (unfold RS, RT; ring).
    eapply Qle_trans; [apply Qabs_triangle|].
    eapply Qle_trans;
      [apply Qplus_le_compat; [apply Qabs_triangle|apply Qle_refl]|].
    lra.
Qed.

(** A coordinate that starts at [start] and runs for 30 units of time at
    the rate computed from [start] and [finish] ends within [slack] of
    [finish]. *)
Lemma track_ends_near (start finish : B32.t) (ts : list B32.t) :
  sum_Q ts == 30 ->
  B32.is_finite (track ((finish - start) / time)%fl ts start) = true ->
  Qabs (B32.to_Q (track ((finish - start) / time)%fl ts start)
        - B32.to_Q finish)
  <= slack start finish ts.
Proof.
  intros Hs H. unfold slack.
  assert (Hn : ts <> []).
  { intros ->. cbn [sum_Q] in Hs. discriminate Hs. }
  pose proof (track_rate_finite _ _ _ Hn H) as Hr.
  pose proof (track_error _ _ _ H) as E1. rewrite Hs in E1.
  pose proof (div_error _ _ (eq_refl : B32.is_finite time = true) Hr) as E2.
  pose proof (sub_error _ _ (div_finite_l _ _ Hr)) as E3.
  rewrite time_is_30 in E2.
  set (T := B32.to_Q (track ((finish - start) / time)%fl ts start)) in *.
  set (R := B32.to_Q ((finish - start) / time)%fl) in *.
  set (D := B32.to_Q (finish - start)%fl) in *.
  setoid_replace (T - B32.to_Q finish)
    with ((T - (B32.to_Q start + R * 30)) + 30 * (R - D / 30)
          + (D - (B32.to_Q finish - B32.to_Q start)))
    by (field; discriminate).
  eapply Qle_trans; [apply Qabs_triangle|].
  eapply Qle_trans;
    [apply Qplus_le_compat; [apply Qabs_triangle|apply Qle_refl]|].
  rewrite (Qabs_Qmult 30). change (Qabs 30) with 30.
  assert (30 * Qabs (R - D / 30) <= 30 * ulp ((finish - start) / time)%fl)
    by (apply Qmult_le_l; [reflexivity|exact E2]).
  lra.
Qed.

Lemma sum_Q_repeat (t : B32.t) (n : nat) :
  sum_Q (repeat t n) == inject_Z (Z.of_nat n) * B32.to_Q t.
Proof.
  induction n as [|n IH].
  - cbn [repeat sum_Q]. change (inject_Z (Z.of_nat 0)) with 0. ring.
  - cbn [repeat sum_Q]. rewrite IH, Nat2Z.inj_succ. unfold Z.succ.
    rewrite inject_Z_plus. change (inject_Z 1) with 1. ring.
Qed.

Lemma steps_repeat (i : Input B32.t) (n : nat) :
  steps (repeat i n) = repeat (speed i (fElapsedTime i)) n.
Proof. unfold steps. apply map_repeat. Qed.

(** C5, as the code has it.  From a state that the first frame arms,
    after frames with the space bar held and no corner key whose
    elapsedTime*speedMultiplier values sum to exactly 30, each coordinate
    of the view that is finite lies within [slack] of the same coordinate
    of the fitted end box: one unit in the last place for every product
    and every sum of the frames, thirty for the rate and one for the
    difference of the boxes.  The bound grows with the number of frames;
    nothing brings the view back to the end box. *)
Theorem animation_ends_near_end_box (c : Config B32.t) (s : State B32.t)
    (frames : list (Input B32.t)) :
  first_loop s = false -> initialized s = false ->
  Forall (fun i => zooming i = true) frames ->
  elapsed frames == 30 ->
  let fs := contain_fit c (start_box s) in
  let fe := contain_fit c (end_box s) in
  let final := run c frames s in
  (B32.is_finite (top final) = true ->
   Qabs (B32.to_Q (top final) - B32.to_Q (out_top fe))
   <= slack (out_top fs) (out_top fe) (steps frames))
  /\ (B32.is_finite (left final) = true ->
      Qabs (B32.to_Q (left final) - B32.to_Q (out_left fe))
      <= slack (out_left fs) (out_left fe) (steps frames))
  /\ (B32.is_finite (bottom final) = true ->
      Qabs (B32.to_Q (bottom final) - B32.to_Q (out_bottom fe))
      <= slack (out_bottom fs) (out_bottom fe) (steps frames))
  /\ (B32.is_finite (right final) = true ->
      Qabs (B32.to_Q (right final) - B32.to_Q (out_right fe))
      <= slack (out_right fs) (out_right fe) (steps frames)).
Proof.
  intros Hf Hi Hz Hs. cbv zeta.
  assert (Hn : frames <> []).
  { intros ->. discriminate Hs. }
  destruct (run_tracks_disarmed c frames s Hf Hi Hz Hn) as (E1 & E2 & E3 & E4).
  rewrite E1, E2, E3, E4.
  repeat split; intros H; apply track_ends_near; assumption.
Qed.

(** X8. While the animation runs from an armed state, each coordinate of
    the view that is finite is within the drift of the frames of the line
    from its value through its rate, for every amount of elapsed time: the
    view is not held at the end box. *)
Theorem view_near_line (c : Config B32.t) (s : State B32.t)
    (frames : list (Input B32.t)) :
  first_loop s = false -> initialized s = true ->
  Forall (fun i => zooming i = true) frames ->
  let final := run c frames s in
  (B32.is_finite (top final) = true ->
   Qabs (B32.to_Q (top final)
         - (B32.to_Q (top s) + B32.to_Q (dy1 s) * elapsed frames))
   <= drift (dy1 s) (steps frames) (top s))
  /\ (B32.is_finite (left final) = true ->
      Qabs (B32.to_Q (left final)
            - (B32.to_Q (left s) + B32.to_Q (dx1 s) * elapsed frames))
      <= drift (dx1 s) (steps frames) (left s))
  /\ (B32.is_finite (bottom final) = true ->
      Qabs (B32.to_Q (bottom final)
            - (B32.to_Q (bottom s) + B32.to_Q (dy2 s) * elapsed frames))
      <= drift (dy2 s) (steps frames) (bottom s))
  /\ (B32.is_finite (right final) = true ->
      Qabs (B32.to_Q (right final)
            - (B32.to_Q (right s) + B32.to_Q (dx2 s) * elapsed frames))
      <= drift (dx2 s) (steps frames) (right s)).
Proof.
  intros Hf Hi Hz. cbv zeta.
  destruct (run_tracks c frames s Hf Hi Hz) as (E1 & E2 & E3 & E4).
  rewrite E1, E2, E3, E4.
  repeat split; intros H; apply track_error; assumption.
Qed.

End AnimationBounds.

(** ** The fitter in binary32 *)

Module FitBounds.
Import Rounding Finite.
Local Open Scope Q_scope.

Lemma two_is_2 : B32.to_Q (@of_int B32.t _ 2) == 2.
Proof. vm_compute. reflexivity. Qed.

(** Two edges moved by the same offset, one down and one up, keep their
    middle up to the rounding of the two results. *)
Lemma moved_center (a b offset : B32.t) :
  B32.is_finite (a - offset)%fl = true ->
  B32.is_finite (b + offset)%fl = true ->
  Qabs (center (a - offset)%fl (b + offset)%fl - center a b)
  <= (ulp (a - offset)%fl + ulp (b + offset)%fl) * (1 # 2).
Proof.
  intros Ha Hb. unfold center.
  pose proof (sub_error _ _ Ha) as E1. pose proof (add_error _ _ Hb) as E2.
  set (A' := B32.to_Q (a - offset)%fl) in *.
  set (B' := B32.to_Q (b + offset)%fl) in *.
  setoid_replace ((A' + B') * (1 # 2) - (B32.to_Q a + B32.to_Q b) * (1 # 2))
    with ((1 # 2) * ((A' - (B32.to_Q a - B32.to_Q offset))
                     + (B' - (B32.to_Q b + B32.to_Q offset)))) by ring.
  rewrite Qabs_Qmult. change (Qabs (1 # 2)) with (1 # 2).
  pose proof (Qabs_triangle (A' - (B32.to_Q a - B32.to_Q offset))
                (B' - (B32.to_Q b + B32.to_Q offset))).
  lra.
Qed.

Lemma kept_center (a b : B32.t) :
  Qabs (center a b - center a b) <= (ulp a + ulp b) * (1 # 2).
Proof.
  setoid_replace (center a b - center a b) with 0 by ring.
  pose proof (ulp_nonneg a). pose proof (ulp_nonneg b).
  change (Qabs 0) with 0. lra.
Qed.

(** C6, as the code has it.  In both modes the fitter returns one pair of
    opposite edges as given and moves the other pair by one offset, down
    and up, each result rounded on its own.  When the four edges returned
    are finite, the centre of the rectangle moves by at most half the sum
    of the units in the last place of the two edges of a pair. *)
Theorem fit_keeps_center_within_rounding (coords_in_dimensions : bool)
    (top left bottom right screen_width screen_height : B32.t) :
  let f := PutScreenOverCoordinates coords_in_dimensions
             top left bottom right screen_width screen_height in
  finite_edges f = true ->
  (exists offset : B32.t,
      fitted_box f = ((top - offset)%fl, left, (bottom + offset)%fl, right)
      \/ fitted_box f
         = (top, (left - offset)%fl, bottom, (right + offset)%fl))
  /\ Qabs (center (out_left f) (out_right f) - center left right)
     <= (ulp (out_left f) + ulp (out_right f)) * (1 # 2)
  /\ Qabs (center (out_top f) (out_bottom f) - center top bottom)
     <= (ulp (out_top f) + ulp (out_bottom f)) * (1 # 2).
Proof.
  cbv zeta. intros H.
  split; [exact (fit_shape coords_in_dimensions top left bottom right
                   screen_width screen_height)|].
  unfold finite_edges in H.
  apply andb_prop in H as [H H4]. apply andb_prop in H as [H H3].
  apply andb_prop in H as [H1 H2].
  destruct (fit_shape coords_in_dimensions top left bottom right
              screen_width screen_height) as [offset [E|E]];
    unfold fitted_box in E; injection E as E1 E2 E3 E4;
    rewrite E1, E2, E3, E4 in *; split;
    first [apply kept_center | apply moved_center; assumption].
Qed.

Lemma finite_value_nonzero (x : B32.t) :
  B32.is_finite x = true -> B32.is_zero x = false -> ~ B32.to_Q x == 0.
Proof.
  destruct x as [sx|sx| |sx mx ex]; try discriminate. intros _ _.
  rewrite to_Q_finite. pose proof (pow2_pos ex).
  assert (0 < inject_Z (Zpos mx)) by reflexivity.
  assert (0 < inject_Z (Zpos mx) * 2 ^ ex) by (apply Qmult_lt_0_compat; assumption).
  destruct sx; unfold sgn; lra.
Qed.

(** The offset of the second branch when the rectangle's aspect ratio is
    the screen's: what is left of [height * (width / height) - width]
    after four roundings. *)
Lemma matching_offset (width height : B32.t) :
  let offset :=
    ((height * (width / height) - width) / of_int 2)%fl in
  B32.is_finite offset = true ->
  Qabs (B32.to_Q offset) <= offset_slack width height (width / height)%fl.
Proof.
  cbv zeta. intros Ho. unfold offset_slack.
  pose proof (div_finite_l _ _ Ho) as Hd.
  destruct (sub_finite _ _ Hd) as [Hp Hw].
  destruct (mul_finite _ _ Hp) as [Hh Ha].
  pose proof (div_error _ _ (eq_refl : B32.is_finite (of_int 2) = true) Ho)
    as E4.
  rewrite two_is_2 in E4.
  pose proof (sub_error _ _ Hd) as E3.
  pose proof (mul_error _ _ Hp) as E2.
  pose proof (div_error _ _ Hh Ha) as E1.
  pose proof (finite_value_nonzero _ Hh (div_finite_divisor _ _ Hw Ha)) as Hn.
  set (O := B32.to_Q ((height * (width / height) - width) / of_int 2)%fl) in *.
  set (D := B32.to_Q (height * (width / height) - width)%fl) in *.
  set (P := B32.to_Q (height * (width / height))%fl) in *.
  set (Aq := B32.to_Q (width / height)%fl) in *.
  set (H := B32.to_Q height) in *. set (W := B32.to_Q width) in *.
  assert (E1' : Qabs (H * Aq - W) <= Qabs H * ulp (width / height)%fl).
  { setoid_replace (H * Aq - W) with (H * (Aq - W / H)) by (field; exact Hn).
    rewrite Qabs_Qmult, (Qmult_comm (Qabs H)), (Qmult_comm (Qabs H)).
    apply Qmult_le_compat_r; [exact E1|apply Qabs_nonneg]. }
  setoid_replace O
    with ((O - D / 2)
          + (1 # 2) * ((D - (P - W)) + ((P - H * Aq) + (H * Aq - W))))
    by field.
  eapply Qle_trans; [apply Qabs_triangle|].
  rewrite Qabs_Qmult. change (Qabs (1 # 2)) with (1 # 2).
  pose proof (Qabs_triangle (D - (P - W)) ((P - H * Aq) + (H * Aq - W))).
  pose proof (Qabs_triangle (P - H * Aq) (H * Aq - W)).
  lra.
Qed.

(** C7, as the code has it.  When the aspect ratio the fitter computes
    for the rectangle is the one it computes for the screen, both modes
    take the second branch: top and bottom are returned as given, the
    scale is height / screen_height, and left and right are moved apart
    by offset = (height * screen_aspect - width) / 2.  That offset need
    not be zero; when finite it is bounded by the rounding of its four
    operations. *)
Theorem fit_matching_aspect_within_rounding (coords_in_dimensions : bool)
    (top left bottom right screen_width screen_height : B32.t) :
  ((right - left) / (bottom - top) = screen_width / screen_height)%fl ->
  let width := (right - left)%fl in
  let height := (bottom - top)%fl in
  let offset :=
    ((height * (screen_width / screen_height) - width) / of_int 2)%fl in
  let f := PutScreenOverCoordinates coords_in_dimensions
             top left bottom right screen_width screen_height in
  scaling f = (height / screen_height)%fl
  /\ fitted_box f = (top, (left - offset)%fl, bottom, (right + offset)%fl)
  /\ (B32.is_finite offset = true ->
      Qabs (B32.to_Q offset)
      <= offset_slack width height (screen_width / screen_height)%fl).
Proof.
  intros E. cbv zeta. unfold PutScreenOverCoordinates.
  rewrite E, ltb_irrefl, !andb_false_r. cbn [orb].
  split; [reflexivity|]. split; [reflexivity|].
  rewrite <- E. exact (matching_offset (right - left)%fl (bottom - top)%fl).
Qed.

End FitBounds.
(** ** Instances of the laws *)

Lemma corner_key_resets_view_witness :
  first_loop (paused : State B32.t) || corner_key (W_held : Input B32.t) = true
  /\ view_box (frame cfg W_held paused : State B32.t)
     = fitted_box (cover_fit_image cfg)
  /\ initialized (frame cfg W_held paused : State B32.t) = false.
Proof.
  split; [reflexivity|].
  apply (corner_key_resets_view cfg W_held paused). reflexivity.
Defined.

Lemma edit_rearms_witness :
  (corner_key (Q_click : Input B32.t) = true
   /\ Forall (fun i : Input B32.t => idle i = true) [nothing_held]
   /\ down (space_held : Input B32.t) VK_SPACE = true)
  /\ initialized (frame cfg Q_click paused : State B32.t) = false
  /\ rates (frame cfg space_held
              (run cfg [nothing_held] (frame cfg Q_click paused)) : State B32.t)
     = rates_between
         (contain_fit cfg (start_box (frame cfg Q_click paused)))
         (contain_fit cfg (end_box (frame cfg Q_click paused))).
Proof.
  split; [repeat split; try reflexivity; repeat constructor|].
  apply (edit_rearms cfg Q_click [nothing_held] space_held paused);
    try reflexivity.
  repeat constructor.
Defined.

Lemma release_keeps_armed_witness :
  (first_loop (paused : State B32.t) = false
   /\ initialized (paused : State B32.t) = true
   /\ idle (nothing_held : Input B32.t) = true
   /\ zooming (space_held : Input B32.t) = true)
  /\ frame cfg nothing_held paused = (paused : State B32.t)
  /\ frame cfg space_held (frame cfg nothing_held paused)
     = advance (speed space_held (fElapsedTime space_held))
         (paused : State B32.t)
  /\ (forall i : Input B32.t,
        corner_key i = false -> initialized (frame cfg i paused) = true).
Proof.
  split; [repeat split; reflexivity|].
  apply (release_keeps_armed cfg nothing_held space_held paused); reflexivity.
Defined.

Lemma arming_fits_stored_boxes_witness :
  (down (space_held : Input B32.t) VK_SPACE = true
   /\ down (space_held : Input B32.t) VK_LBUTTON = false)
  /\ start_box (frame cfg space_held settled : State B32.t)
     = (if initialized (settled : State B32.t) then start_box settled
        else fitted_box (contain_fit cfg (start_box settled)))
  /\ end_box (frame cfg space_held settled : State B32.t)
     = (if initialized (settled : State B32.t) then end_box settled
        else fitted_box (contain_fit cfg (end_box settled))).
Proof.
  split; [split; reflexivity|].
  apply (arming_fits_stored_boxes cfg space_held settled); reflexivity.
Defined.

Lemma animation_ends_near_end_box_witness :
  (first_loop (settled : State B32.t) = false
   /\ initialized (settled : State B32.t) = false
   /\ Forall (fun i : Input B32.t => zooming i = true) two_steps
   /\ (elapsed two_steps == 30)%Q)
  /\ (let fs := contain_fit cfg (start_box (settled : State B32.t)) in
      let fe := contain_fit cfg (end_box (settled : State B32.t)) in
      let final := run cfg two_steps (settled : State B32.t) in
      (B32.is_finite (top final) = true ->
       (Qabs (B32.to_Q (top final) - B32.to_Q (out_top fe))
        <= slack (out_top fs) (out_top fe) (steps two_steps))%Q)
      /\ (B32.is_finite (left final) = true ->
          (Qabs (B32.to_Q (left final) - B32.to_Q (out_left fe))
           <= slack (out_left fs) (out_left fe) (steps two_steps))%Q)
      /\ (B32.is_finite (bottom final) = true ->
          (Qabs (B32.to_Q (bottom final) - B32.to_Q (out_bottom fe))
           <= slack (out_bottom fs) (out_bottom fe) (steps two_steps))%Q)
      /\ (B32.is_finite (right final) = true ->
          (Qabs (B32.to_Q (right final) - B32.to_Q (out_right fe))
           <= slack (out_right fs) (out_right fe) (steps two_steps))%Q)).
Proof.
  split;
    [repeat split;
     first [reflexivity | vm_compute; reflexivity | repeat constructor]|].
  apply (AnimationBounds.animation_ends_near_end_box cfg settled two_steps);
    first [reflexivity | vm_compute; reflexivity | repeat constructor].
Defined.

(** C5 fails as stated.  From the state the program is in after its first
    frame, thirty seconds at 64 frames a second, whose times sum to
    exactly 30 in binary32 as in the rationals, end with the right edge
    at 1920.1417, more than a tenth from the right edge 1920 of the
    fitted end box.  And thirty seconds in frames of 2^-30 s never leave
    the fitted start box (375, 0, 2625, 4000): every increment is lost in
    the rounding of its sum. *)
Lemma animation_counterexample :
  (first_loop (settled : State B32.t) = false
   /\ initialized (settled : State B32.t) = false
   /\ fitted_box (contain_fit cfg (start_box (settled : State B32.t)))
      = (of_int 375, of_int 0, of_int 2625, of_int 4000)
   /\ fitted_box (contain_fit cfg (end_box (settled : State B32.t)))
      = (of_int 0, of_int 0, of_int 1080, of_int 1920))
  /\ (Forall (fun i : Input B32.t => zooming i = true) sixty_four_a_second
      /\ (elapsed sixty_four_a_second == 30)%Q
      /\ normalized_time sixty_four_a_second = of_int 30
      /\ right (run cfg sixty_four_a_second settled)
         = S754_finite false 15729801 (-13)
      /\ ((1 # 10)
          < B32.to_Q (right (run cfg sixty_four_a_second settled)) - 1920)%Q)
  /\ (Forall (fun i : Input B32.t => zooming i = true) brief
      /\ (elapsed brief == 30)%Q
      /\ view_box (run cfg brief settled)
         = (of_int 375, of_int 0, of_int 2625, of_int 4000)).
Proof.
  split; [vm_compute; repeat split; reflexivity|]. split.
  - split; [apply Forall_repeat; reflexivity|].
    split.
    { unfold elapsed, sixty_four_a_second.
      rewrite AnimationBounds.steps_repeat, AnimationBounds.sum_Q_repeat.
      vm_compute. reflexivity. }
    vm_compute. repeat split; reflexivity.
  - split; [apply Forall_repeat; reflexivity|].
    split.
    { unfold elapsed, brief.
      rewrite AnimationBounds.steps_repeat, AnimationBounds.sum_Q_repeat,
        N_nat_Z.
      vm_compute. reflexivity. }
    unfold brief. destruct (N.to_nat 32212254720) as [|n] eqn:E.
    { apply (f_equal N.of_nat) in E. rewrite N2Nat.id in E. discriminate E. }
    cbn [repeat run].
    rewrite run_repeat_fixed by (vm_compute; reflexivity).
    vm_compute. reflexivity.
Qed.

Lemma fit_keeps_center_within_rounding_witness :
  finite_edges (fit_at true 0 0 3000 4000 1920 1080) = true
  /\ (let f := fit_at true 0 0 3000 4000 1920 1080 in
      (exists offset : B32.t,
          fitted_box f
          = ((of_int 0 - offset)%fl, of_int 0,
             (of_int 3000 + offset)%fl, of_int 4000)
          \/ fitted_box f
             = (of_int 0, (of_int 0 - offset)%fl,
                of_int 3000, (of_int 4000 + offset)%fl))
      /\ (Qabs (center (out_left f) (out_right f)
                - center (of_int 0) (of_int 4000))
          <= (ulp (out_left f) + ulp (out_right f)) * (1 # 2))%Q
      /\ (Qabs (center (out_top f) (out_bottom f)
                - center (of_int 0) (of_int 3000))
          <= (ulp (out_top f) + ulp (out_bottom f)) * (1 # 2))%Q).
Proof.
  split; [reflexivity|].
  apply (FitBounds.fit_keeps_center_within_rounding true
           (of_int 0) (of_int 0) (of_int 3000) (of_int 4000)
           (of_int 1920) (of_int 1080)).
  reflexivity.
Defined.

(** C6 fails as stated.  The 4000x3000 image fitted on 1920x1080 with
    [coords_in_dimensions = true] has its centre moved from 2000 to
    2000 + 2^-13; the rectangle from 1 to 2 across and 2^28 high, fitted
    on a 1x1 viewport, has its centre moved from 3/2 to 0.  Extents and
    viewport dimensions are positive and every result is finite; the
    centres computed in binary32, (left + right) / 2, move as well. *)
Lemma center_counterexample :
  (let f := fit_at true 0 0 3000 4000 1920 1080 in
   finite_result f = true
   /\ (center (of_int 0) (of_int 4000) == 2000)%Q
   /\ (center (out_left f) (out_right f) == 2000 + (1 # 8192))%Q
   /\ ((of_int 0 + of_int 4000) / of_int 2)%fl = (of_int 2000 : B32.t)
   /\ ((out_left f + out_right f) / of_int 2)%fl
      = S754_finite false 16384001 (-13))
  /\ (let f := fit_at true 0 1 268435456 2 1 1 in
      finite_result f = true
      /\ (center (of_int 1) (of_int 2) == 3 # 2)%Q
      /\ (center (out_left f) (out_right f) == 0)%Q
      /\ ((of_int 1 + of_int 2) / of_int 2)%fl = (literal 3 2 : B32.t)
      /\ ((out_left f + out_right f) / of_int 2)%fl = of_int 0).
Proof. vm_compute. repeat split; reflexivity. Qed.

Lemma fit_matching_aspect_within_rounding_witness :
  ((of_int 3840 - of_int 0) / (of_int 1600 - of_int 0)
   = (of_int 3840 : B32.t) / of_int 1600)%fl
  /\ (let width : B32.t := (of_int 3840 - of_int 0)%fl in
      let height : B32.t := (of_int 1600 - of_int 0)%fl in
      let offset :=
        ((height * (of_int 3840 / of_int 1600) - width) / of_int 2)%fl in
      let f := fit_at true 0 0 1600 3840 3840 1600 in
      scaling f = (height / of_int 1600)%fl
      /\ fitted_box f
         = (of_int 0, (of_int 0 - offset)%fl,
            of_int 1600, (of_int 3840 + offset)%fl)
      /\ (B32.is_finite offset = true ->
          (Qabs (B32.to_Q offset)
           <= offset_slack width height (of_int 3840 / of_int 1600)%fl)%Q)).
Proof.
  split; [reflexivity|].
  apply (FitBounds.fit_matching_aspect_within_rounding true
           (of_int 0) (of_int 0) (of_int 1600) (of_int 3840)
           (of_int 3840) (of_int 1600)).
  reflexivity.
Defined.

(** C7 fails as stated.  The rectangle (0, 0, 3840, 1600) on a 3840x1600
    viewport has the viewport's aspect ratio, computed and exact, and is
    returned in both modes with its left edge at -2^-13: 1600 times the
    rounded 2.4 is not 3840.  And the 16777000x3 rectangle on a
    16777001x3 viewport, whose computed aspect ratios are equal, gets the
    scale 3/3 = 1, which is not 16777000/16777001 as computed. *)
Lemma matching_aspect_counterexample :
  (((of_int 3840 - of_int 0) / (of_int 1600 - of_int 0)
    = (of_int 3840 : B32.t) / of_int 1600)%fl
   /\ out_left (fit_at true 0 0 1600 3840 3840 1600)
      = S754_finite true 8388608 (-36)
   /\ out_left (fit_at false 0 0 1600 3840 3840 1600)
      = S754_finite true 8388608 (-36)
   /\ (B32.to_Q (S754_finite true 8388608 (-36)) == - (1 # 8192))%Q)
  /\ (((of_int 16777000 - of_int 0) / (of_int 3 - of_int 0)
       = (of_int 16777001 : B32.t) / of_int 3)%fl
      /\ scaling (fit_at true 0 0 3 16777000 16777001 3) = of_int 1
      /\ scaling (fit_at false 0 0 3 16777000 16777001 3) = of_int 1
      /\ (B32.to_Q ((of_int 16777000 - of_int 0) / of_int 16777001)%fl
          == 1 - (1 # 16777216))%Q).
Proof. vm_compute. repeat split; reflexivity. Qed.

(** Thirty frames of one second each in binary32, from the whole image to
    the end box (0, 0, 1920, 1080): the view ends within 0.01 of it. *)
Example thirty_seconds_binary32 :
  let s := run cfg (repeat space_held 30) (settled : State B32.t) in
  within (1 # 100) (top s) 0 = true
  /\ within (1 # 100) (left s) 0 = true
  /\ within (1 # 100) (bottom s) 1080 = true
  /\ within (1 # 100) (right s) 1920 = true.
Proof. vm_compute. repeat split; reflexivity. Qed.

(** The whole image fitted in binary32 with [coords_in_dimensions = true]:
    the centre (2000, 1500) is kept within the tolerance. *)
Example center_binary32 :
  let f := fit_at true 0 0 3000 4000 1920 1080 in
  within tolerance ((out_left f + out_right f) / of_int 2)%fl 2000 = true
  /\ within tolerance ((out_top f + out_bottom f) / of_int 2)%fl 1500 = true.
Proof. vm_compute. split; reflexivity. Qed.

(** A 960x540 rectangle fitted in binary32 on 1920x1080: nothing moves and
    the scale is one half, in both modes. *)
Example matching_aspect_binary32 :
  fit_at true 0 0 540 960 1920 1080
    = mkFitted (literal 1 2) (of_int 0) (of_int 0) (of_int 540) (of_int 960)
  /\ fit_at false 0 0 540 960 1920 1080
    = mkFitted (literal 1 2) (of_int 0) (of_int 0) (of_int 540) (of_int 960).
Proof. vm_compute. split; reflexivity. Qed.

(** The bound of C5 on the two frames of [two_steps]: within 0.002 of the
    right edge of the end box. *)
Example slack_of_two_steps :
  let fs := contain_fit cfg (start_box (settled : State B32.t)) in
  let fe := contain_fit cfg (end_box (settled : State B32.t)) in
  (slack (out_right fs) (out_right fe) (steps two_steps) <= 2 # 1000)%Q.
Proof. vm_compute. discriminate. Qed.

(** * Further laws *)

(** ** The loop body *)

Section LoopLaws.
Context {F : Type} {A : Arith F}.
Local Open Scope fl_scope.
Implicit Types (c : Config F) (i : Input F) (s : State F).

(** X6. On a frame without the space bar, a corner of the stored boxes is
    set exactly when its key and the mouse button are both held, every
    corner set gets the same clicked point, and the rates are not
    touched. *)
Theorem click_sets_held_corners c i s :
  down i VK_SPACE = false ->
  let hit k := down80 i k && down i VK_LBUTTON in
  let p := (clicked_x c i, clicked_y c i) in
  let s' := frame c i s in
  (start_x1 s', start_y1 s')
    = (if hit VK_Q then p else (start_x1 s, start_y1 s))
  /\ (start_x2 s', start_y2 s')
    = (if hit VK_W then p else (start_x2 s, start_y2 s))
  /\ (end_x1 s', end_y1 s')
    = (if hit VK_E then p else (end_x1 s, end_y1 s))
  /\ (end_x2 s', end_y2 s')
    = (if hit VK_R then p else (end_x2 s, end_y2 s))
  /\ rates s' = rates s.
Proof.
  intros Hs. cbv zeta. unfold frame. rewrite (zoom_released c i s Hs).
  rewrite rates_edit. unfold edit, clicked_x, clicked_y.
  destruct (first_loop s), (down80 i VK_Q), (down80 i VK_W),
    (down80 i VK_E), (down80 i VK_R), (down i VK_LBUTTON);
    cbn; repeat split; reflexivity.
Qed.

Lemma pass_rendered c i s :
  down i VK_ESCAPE = false ->
  pass c i s = Some (if BeginScene i then frame c i s else s).
Proof. intros H. unfold pass. rewrite H. now destruct (BeginScene i). Qed.

(** X7. The main loop ends at the first pass with ESC down, or after the
    first pass whose [Present] failed without recovery, whatever comes
    after; up to there it applies the frames of the passes whose
    [BeginScene] succeeded, one after the other, and skips the others.  The
    frame of a pass whose [Present] fails is still applied; that of a pass
    with ESC down is not. *)
Theorem main_loop_runs_rendered_frames c (before after : list (Input F * bool))
    (stop : Input F * bool) s :
  Forall (fun p => down (fst p) VK_ESCAPE = false /\ snd p = true) before ->
  down (fst stop) VK_ESCAPE = true
  \/ (down (fst stop) VK_ESCAPE = false /\ snd stop = false) ->
  main_loop c (before ++ stop :: after) s
    = run c (filter (@BeginScene F)
               (map fst before
                ++ (if down (fst stop) VK_ESCAPE then [] else [fst stop]))) s
  /\ main_loop c before s = run c (filter (@BeginScene F) (map fst before)) s.
Proof.
  intros Hb He. revert s.
  induction Hb as [|[i b] rest [Hi Hp] _ IH]; intros s; cbn in *.
  - destruct stop as [i b]. cbn in *. unfold pass.
    destruct He as [He|[He Hp]]; rewrite He; [split; reflexivity|].
    subst b. split; [|reflexivity]. cbn. now destruct (BeginScene i).
  - subst b. rewrite (pass_rendered c i s Hi).
    destruct (BeginScene i); cbn; apply IH.
Qed.

End LoopLaws.

(** ** The message pump and the lost device *)

Lemma dispatch_quiet (queue : list Z) :
  ~ In WM_QUIT queue -> dispatch queue = (queue, false).
Proof.
  induction queue as [|m rest IH]; intros H; cbn; [reflexivity|].
  destruct (Z.eqb_spec m WM_QUIT) as [E|E].
  - exfalso. apply H. left. exact E.
  - rewrite IH; [reflexivity|]. intros Hin. apply H. now right.
Qed.

Lemma dispatch_quit (pre post : list Z) :
  ~ In WM_QUIT pre ->
  dispatch (pre ++ WM_QUIT :: post) = (pre ++ [WM_QUIT], true).
Proof.
  induction pre as [|m rest IH]; intros H; cbn; [reflexivity|].
  destruct (Z.eqb_spec m WM_QUIT) as [E|E].
  - exfalso. apply H. left. exact E.
  - rewrite IH; [reflexivity|]. intros Hin. apply H. now right.
Qed.

Lemma quit_split (queue : list Z) :
  ~ In WM_QUIT queue
  \/ exists pre post, queue = pre ++ WM_QUIT :: post /\ ~ In WM_QUIT pre.
Proof.
  induction queue as [|m rest IH]; [left; intros []|].
  destruct (Z.eqb_spec m WM_QUIT) as [E|E].
  - right. exists [], rest. subst m. split; [reflexivity|intros []].
  - destruct IH as [H|(pre & post & -> & H)].
    + left. intros [H1|H1]; [congruence|contradiction].
    + right. exists (m :: pre), post. split; [reflexivity|].
      intros [H1|H1]; [congruence|contradiction].
Qed.

Section PumpLaws.
Context {F : Type} {A : Arith F}.
Local Open Scope fl_scope.

(** X15. [HandleMessagePump] returns true exactly when no [WM_QUIT] is
    among the messages, and then it has dispatched them all.  Otherwise it
    dispatches the messages up to the first [WM_QUIT], that one included
    and none after it, stores no elapsed time and leaves
    [last_frame_time] as it was. *)
Theorem pump_stops_at_quit (pElapsedTime : bool) (last_frame_time : option F)
    (call : PumpCall) :
  let p := HandleMessagePump pElapsedTime last_frame_time call in
  (pump_result p = true
   /\ ~ In WM_QUIT (messages call)
   /\ pump_dispatched p = messages call
   /\ pump_static p = seconds (tick call))
  \/ (pump_result p = false
      /\ pump_elapsed p = None
      /\ pump_static p
         = match last_frame_time with
           | Some t => t
           | None => seconds (tick_init call)
           end
      /\ exists pre post,
          messages call = pre ++ WM_QUIT :: post
          /\ ~ In WM_QUIT pre
          /\ pump_dispatched p = pre ++ [WM_QUIT]).
Proof.
  cbv zeta. unfold HandleMessagePump.
  destruct (quit_split (messages call)) as [H|(pre & post & E & H)].
  - left. rewrite (dispatch_quiet _ H).
    destruct pElapsedTime; cbn; repeat split; assumption.
  - right. rewrite E, (dispatch_quit pre post H). cbn.
    repeat split. exists pre, post. now repeat split.
Qed.

Lemma pump_quiet (pElapsedTime : bool) (last_frame_time : option F)
    (call : PumpCall) :
  ~ In WM_QUIT (messages call) ->
  let base := match last_frame_time with
              | Some t => t
              | None => seconds (tick_init call)
              end in
  HandleMessagePump pElapsedTime last_frame_time call
  = mkPumped true (messages call)
      (if pElapsedTime then Some (seconds (tick call) - base) else None)
      (seconds (tick call)).
Proof.
  intros H. cbv zeta. unfold HandleMessagePump.
  rewrite (dispatch_quiet _ H). now destruct pElapsedTime.
Qed.

(** X16. [WaitForLostDevice] returns [S_OK] exactly when, after turns in
    which the pump went on and the device was not yet ready to be reset, a
    turn comes in which the pump goes on, [TestCooperativeLevel] answers
    [D3DERR_DEVICENOTRESET] and [Reset] succeeds; later turns do not
    happen.  The pump's [last_frame_time] is then the time of that turn, so
    the wait is not counted in the next frame's elapsed time. *)
Theorem wait_succeeds_iff (last_frame_time : option F) (turns : list Attempt)
    (final : option F) :
  WaitForLostDevice last_frame_time turns = (Some S_OK, final)
  <-> exists before a after,
        turns = before ++ a :: after
        /\ Forall (fun b => ~ In WM_QUIT (messages (pump_call b))
                            /\ TestCooperativeLevel b <> D3DERR_DEVICENOTRESET)
             before
        /\ ~ In WM_QUIT (messages (pump_call a))
        /\ TestCooperativeLevel a = D3DERR_DEVICENOTRESET
        /\ Reset_succeeds a = true
        /\ final = Some (seconds (tick (pump_call a))).
Proof.
  revert last_frame_time. induction turns as [|b rest IH]; intros last.
  - cbn. split; [discriminate|].
    intros (before & a & after & E & _). now destruct before.
  - cbn [WaitForLostDevice].
    destruct (quit_split (messages (pump_call b))) as [H|(pre & post & E & H)].
    + rewrite (pump_quiet false last (pump_call b) H).
      cbn [pump_result pump_static].
      destruct (Z.eqb_spec D3DERR_DEVICENOTRESET (TestCooperativeLevel b))
        as [Ec|Ec].
      * split.
        -- destruct (Reset_succeeds b) eqn:Er; intros Hr; [|discriminate Hr].
           exists [], b, rest. inversion Hr. now repeat split.
        -- intros (before & a & after & Et & Hb & Ha & Hc & Hs & Hf).
           destruct before as [|b' before]; cbn in Et; inversion Et; subst.
           ++ now rewrite Hs.
           ++ inversion Hb as [|? ? [_ Hn] _]; subst. congruence.
      * rewrite IH. split.
        -- intros (before & a & after & Et & Hb & Hrest).
           exists (b :: before), a, after. split; [now rewrite Et|].
           split; [|exact Hrest]. constructor; [|exact Hb].
           split; [exact H|congruence].
        -- intros (before & a & after & Et & Hb & Ha & Hc & Hrest).
           destruct before as [|b' before]; cbn in Et; inversion Et; subst.
           ++ congruence.
           ++ exists before, a, after. inversion Hb; subst.
              now repeat split.
    + unfold HandleMessagePump. rewrite E, (dispatch_quit pre post H).
      cbn [pump_result pump_static]. split; [discriminate|].
      intros (before & a & after & Et & Hb & Ha & _). exfalso.
      destruct before as [|b' before]; cbn in Et; inversion Et; subst.
      * apply Ha. rewrite E. apply in_or_app. right. now left.
      * inversion Hb as [|? ? [Hq _] _]; subst. apply Hq. rewrite E.
        apply in_or_app. right. now left.
Qed.

End PumpLaws.

(** ** The quad *)

Section QuadLaws.
Context {F : Type} {A : Arith F}.
Local Open Scope fl_scope.

(** X13. The drawing code sends six vertices, two triangles that share the
    diagonal from the bottom-left to the top-right corner of the screen.
    Every vertex sits on a corner of the screen, at depth 0.5 with rhw 1,
    and carries the view's edge on that side divided by the image's size:
    left/image_width at x = 0 and right/image_width at x = screen_width,
    top/image_height at y = 0 and bottom/image_height at
    y = screen_height. *)
Theorem quad_shows_view_corners (c : Config F) (s : State F) :
  length (vertices c s) = 6%nat
  /\ nth_error (vertices c s) 3 = nth_error (vertices c s) 0
  /\ nth_error (vertices c s) 4 = nth_error (vertices c s) 2
  /\ Forall
       (fun p =>
          ((Vertex.x p = literal 0 1 /\ Vertex.u p = left s / image_width c)
           \/ (Vertex.x p = screen_width c
               /\ Vertex.u p = right s / image_width c))
          /\ ((Vertex.y p = literal 0 1
               /\ Vertex.v p = top s / image_height c)
              \/ (Vertex.y p = screen_height c
                  /\ Vertex.v p = bottom s / image_height c))
          /\ Vertex.z p = literal 5 10 /\ Vertex.rhw p = of_int 1)
       (vertices c s)
  /\ map (fun p => (Vertex.x p, Vertex.y p)) (vertices c s)
     = [ (literal 0 1, screen_height c); (literal 0 1, literal 0 1);
         (screen_width c, literal 0 1); (literal 0 1, screen_height c);
         (screen_width c, literal 0 1); (screen_width c, screen_height c) ].
Proof.
  unfold vertices. cbv zeta.
  split; [reflexivity|]. split; [reflexivity|]. split; [reflexivity|].
  split; [|reflexivity].
  repeat (apply Forall_cons;
          [cbn [Vertex.x Vertex.y Vertex.z Vertex.rhw Vertex.u Vertex.v];
           repeat split; auto|]).
  apply Forall_nil.
Qed.

End QuadLaws.

(** ** The clock of the pump *)

Section ClockLaws.
Context {F : Type} {A : Arith F}.
Local Open Scope fl_scope.

(** X17. Along calls of the pump that meet no [WM_QUIT], the elapsed time
    each call stores is the clock it reads minus the clock the call
    before it read; the first call measures from the stored
    [last_frame_time], or from the tick count it reads first when there
    is none. *)
Theorem elapsed_times_are_gaps (calls : list PumpCall) :
  forall last_frame_time : option F,
  Forall (fun call => ~ In WM_QUIT (messages call)) calls ->
  fst (pump_loop last_frame_time calls)
  = gaps (last_time last_frame_time calls)
      (map (fun call => seconds (tick call)) calls).
Proof.
  induction calls as [|call rest IH]; intros last H; [reflexivity|].
  inversion H as [|? ? H1 H2]; subst.
  cbn [pump_loop map gaps].
  rewrite (pump_quiet true last call H1). cbv zeta.
  cbn [pump_result pump_elapsed pump_static].
  specialize (IH (Some (seconds (tick call))) H2).
  destruct (pump_loop (Some (seconds (tick call))) rest) as [times final].
  cbn [fst] in *. rewrite IH.
  destruct last, rest; reflexivity.
Qed.

End ClockLaws.

(** ** The speed keys, in binary32 *)

Module SpeedLaws.
Local Open Scope fl_scope.

Ltac key :=
  split; [reflexivity|];
  split; [split; vm_compute; discriminate|left; reflexivity].

(** X14. In binary32 the factor of the speed keys is finite and lies
    between 0.15 and 2.5, whatever keys are down; the time a frame
    advances by is [fElapsedTime] itself when no speed key is down, and
    [fElapsedTime] times the factor otherwise. *)
Theorem speed_keys_bounds (i : Input B32.t) (t : B32.t) :
  B32.is_finite (multiplier i) = true
  /\ ((15 # 100) <= B32.to_Q (multiplier i) <= (25 # 10))%Q
  /\ (speed i t = t * multiplier i
      \/ (speed i t = t /\ multiplier i = literal 1 1)).
Proof.
  unfold multiplier, speed.
  destruct (down i VK_1); [key|].
  destruct (down i VK_2); [key|].
  destruct (down i VK_3); [key|].
  destruct (down i VK_4); [key|].
  destruct (down i VK_5); [key|].
  destruct (down i VK_6); [key|].
  destruct (down i VK_7); [key|].
  destruct (down i VK_8); [key|].
  destruct (down i VK_9); [key|].
  destruct (down i VK_0); [key|].
  split; [reflexivity|].
  split; [split; vm_compute; discriminate|].
  right. split; reflexivity.
Qed.

End SpeedLaws.

(** ** A box collapsed to a point, in binary32 *)

Module PointBox.
Local Open Scope fl_scope.
Implicit Types (x y : B32.t).

Lemma sub_self x : B32.is_finite x = true -> x - x = S754_zero false.
Proof.
  intros H. destruct x as [[]| | |s m e]; try discriminate H; try reflexivity.
  cbn. unfold SFsub. rewrite Z.sub_diag. reflexivity.
Qed.

Lemma ltb_nan_l x : (S754_nan <? x) = false.
Proof. reflexivity. Qed.

Lemma ltb_nan_r x : (x <? S754_nan) = false.
Proof. now destruct x. Qed.

Lemma zero_mul_finite x y :
  B32.is_zero x = true -> B32.is_finite y = true -> B32.is_zero (x * y) = true.
Proof.
  intros Hx Hy. destruct x; try discriminate Hx.
  destruct y; try discriminate Hy; reflexivity.
Qed.

Lemma zero_sub_zero x y :
  B32.is_zero x = true -> B32.is_zero y = true -> B32.is_zero (x - y) = true.
Proof.
  intros Hx Hy. destruct x as [[]| | | ]; try discriminate Hx;
    destruct y as [[]| | | ]; try discriminate Hy; reflexivity.
Qed.

Lemma zero_div_nonzero x y :
  B32.is_zero x = true -> B32.is_finite y = true -> B32.is_zero y = false ->
  B32.is_zero (x / y) = true.
Proof.
  intros Hx Hy Hz. destruct x; try discriminate Hx.
  destruct y; try discriminate Hy; try discriminate Hz; reflexivity.
Qed.

Lemma sub_zero_r x y :
  B32.is_finite x = true -> B32.is_zero y = true ->
  B32.is_finite (x - y) = true /\ B32.to_Q (x - y) = B32.to_Q x.
Proof.
  intros Hx Hy. destruct y as [[]| | | ]; try discriminate Hy;
    destruct x as [[]| | | ]; try discriminate Hx; split; reflexivity.
Qed.

Lemma add_zero_r x y :
  B32.is_finite x = true -> B32.is_zero y = true ->
  B32.is_finite (x + y) = true /\ B32.to_Q (x + y) = B32.to_Q x.
Proof.
  intros Hx Hy. destruct y as [[]| | | ]; try discriminate Hy;
    destruct x as [[]| | | ]; try discriminate Hx; split; reflexivity.
Qed.

Lemma zero_finite x : B32.is_zero x = true -> B32.is_finite x = true.
Proof. now destruct x. Qed.

(** X18. A box collapsed to a point (Q and W held on one click set both
    corners of the start box to the same point) has the aspect 0/0, a NaN,
    and both comparisons with it fail; the fitter then returns the point as
    it is, with finite coordinates and a scale of zero, in both modes. *)
Theorem point_box_is_kept (coords_in_dimensions : bool)
    (x y screen_width screen_height : B32.t) :
  B32.is_finite x = true -> B32.is_finite y = true ->
  B32.is_finite (screen_width / screen_height) = true ->
  B32.is_finite screen_height = true -> B32.is_zero screen_height = false ->
  let f := PutScreenOverCoordinates coords_in_dimensions y x y x
             screen_width screen_height in
  finite_result f = true
  /\ B32.is_zero (scaling f) = true
  /\ B32.to_Q (out_top f) = B32.to_Q y
  /\ B32.to_Q (out_left f) = B32.to_Q x
  /\ B32.to_Q (out_bottom f) = B32.to_Q y
  /\ B32.to_Q (out_right f) = B32.to_Q x.
Proof.
  intros Hx Hy Ha Hh Hz f. subst f. unfold PutScreenOverCoordinates.
  rewrite (sub_self x Hx), (sub_self y Hy).
  change (S754_zero false / S754_zero false) with S754_nan.
  rewrite ltb_nan_l, ltb_nan_r, !andb_false_r. cbn [orb].
  unfold finite_result. cbn [scaling out_top out_left out_bottom out_right].
  match goal with
  | |- context [B32.is_finite (x - ?o)] => set (off := o)
  end.
  match goal with
  | |- _ /\ B32.is_zero ?q = true /\ _ => set (s := q)
  end.
  assert (Hoff : B32.is_zero off = true).
  { unfold off. apply zero_div_nonzero; try reflexivity.
    apply zero_sub_zero; [|reflexivity].
    now apply zero_mul_finite. }
  assert (Hs : B32.is_zero s = true)
    by (unfold s; now apply zero_div_nonzero).
  destruct (sub_zero_r x off Hx Hoff) as [L1 L2].
  destruct (add_zero_r x off Hx Hoff) as [R1 R2].
  rewrite (zero_finite s Hs), Hy, L1, R1. repeat split; assumption.
Qed.

End PointBox.

(** ** Instances of the further laws *)

Lemma click_sets_held_corners_witness :
  down (Q_click : Input B32.t) VK_SPACE = false
  /\ (start_x1 (frame cfg Q_click settled : State B32.t),
      start_y1 (frame cfg Q_click settled : State B32.t))
     = (clicked_x cfg Q_click, clicked_y cfg Q_click)
  /\ (start_x2 (frame cfg Q_click settled : State B32.t),
      start_y2 (frame cfg Q_click settled : State B32.t))
     = (start_x2 settled, start_y2 settled)
  /\ (end_x1 (frame cfg Q_click settled : State B32.t),
      end_y1 (frame cfg Q_click settled : State B32.t))
     = (end_x1 settled, end_y1 settled)
  /\ (end_x2 (frame cfg Q_click settled : State B32.t),
      end_y2 (frame cfg Q_click settled : State B32.t))
     = (end_x2 settled, end_y2 settled)
  /\ rates (frame cfg Q_click settled : State B32.t) = rates settled.
Proof.
  split; [reflexivity|].
  exact (click_sets_held_corners cfg Q_click settled eq_refl).
Defined.

Lemma main_loop_runs_rendered_frames_witness :
  (Forall (fun p : Input B32.t * bool =>
             down (fst p) VK_ESCAPE = false /\ snd p = true)
     [(nothing_held, true); (space_held, true)]
   /\ (down (fst (space_held : Input B32.t, false)) VK_ESCAPE = true
       \/ (down (fst (space_held : Input B32.t, false)) VK_ESCAPE = false
           /\ snd (space_held : Input B32.t, false) = false)))
  /\ main_loop cfg
       ([(nothing_held, true); (space_held, true)]
        ++ (space_held, false) :: [(space_held, true)]) (init cfg)
     = run cfg (filter (@BeginScene B32.t)
                  [nothing_held; space_held; space_held]) (init cfg)
  /\ main_loop cfg [(nothing_held, true); (space_held, true)] (init cfg)
     = run cfg (filter (@BeginScene B32.t) [nothing_held; space_held])
         (init cfg).
Proof.
  split; [split; [repeat constructor|right; split; reflexivity]|].
  apply (main_loop_runs_rendered_frames cfg
           [(nothing_held, true); (space_held, true)]
           [(space_held, true)] (space_held, false) (init cfg));
    [repeat constructor|right; split; reflexivity].
Defined.

Lemma view_near_line_witness :
  (first_loop (paused : State B32.t) = false
   /\ initialized (paused : State B32.t) = true
   /\ Forall (fun i : Input B32.t => zooming i = true) two_steps)
  /\ (let final := run cfg two_steps (paused : State B32.t) in
      (B32.is_finite (top final) = true ->
       (Qabs (B32.to_Q (top final)
              - (B32.to_Q (top paused)
                 + B32.to_Q (dy1 paused) * elapsed two_steps))
        <= drift (dy1 paused) (steps two_steps) (top paused))%Q)
      /\ (B32.is_finite (left final) = true ->
          (Qabs (B32.to_Q (left final)
                 - (B32.to_Q (left paused)
                    + B32.to_Q (dx1 paused) * elapsed two_steps))
           <= drift (dx1 paused) (steps two_steps) (left paused))%Q)
      /\ (B32.is_finite (bottom final) = true ->
          (Qabs (B32.to_Q (bottom final)
                 - (B32.to_Q (bottom paused)
                    + B32.to_Q (dy2 paused) * elapsed two_steps))
           <= drift (dy2 paused) (steps two_steps) (bottom paused))%Q)
      /\ (B32.is_finite (right final) = true ->
          (Qabs (B32.to_Q (right final)
                 - (B32.to_Q (right paused)
                    + B32.to_Q (dx2 paused) * elapsed two_steps))
           <= drift (dx2 paused) (steps two_steps) (right paused))%Q)).
Proof.
  split; [repeat split; first [reflexivity | repeat constructor]|].
  apply (AnimationBounds.view_near_line cfg paused two_steps);
    first [reflexivity | repeat constructor].
Defined.

Lemma elapsed_times_are_gaps_witness :
  Forall (fun call => ~ In WM_QUIT (messages call))
    [quiet 1000; quiet 1016; quiet 1033]
  /\ fst (pump_loop (None : option B32.t)
            [quiet 1000; quiet 1016; quiet 1033])
     = [ (seconds 1000 - seconds 1000)%fl; (seconds 1016 - seconds 1000)%fl;
         (seconds 1033 - seconds 1016)%fl ].
Proof.
  split; [repeat constructor; intros []|].
  apply (elapsed_times_are_gaps [quiet 1000; quiet 1016; quiet 1033]
           (None : option B32.t)).
  repeat constructor; intros [].
Defined.

Lemma wait_succeeds_iff_witness :
  WaitForLostDevice (Some (seconds 4000 : B32.t)) [still_lost; ready; still_lost]
  = (Some S_OK, Some (seconds 6000)).
Proof.
  apply (proj2 (wait_succeeds_iff (Some (seconds 4000 : B32.t))
                  [still_lost; ready; still_lost] (Some (seconds 6000)))).
  exists [still_lost], ready, [still_lost].
  split; [reflexivity|]. split.
  - constructor; [|constructor]. split; [intros []|discriminate].
  - split; [intros []|]. repeat split; reflexivity.
Defined.

Lemma point_box_is_kept_witness :
  (B32.is_finite (of_int 100) = true /\ B32.is_finite (of_int 200) = true
   /\ B32.is_finite (of_int 1920 / of_int 1080)%fl = true
   /\ B32.is_finite (of_int 1080) = true /\ B32.is_zero (of_int 1080) = false)
  /\ finite_result (fit_at false 200 100 200 100 1920 1080) = true
  /\ B32.is_zero (scaling (fit_at false 200 100 200 100 1920 1080)) = true
  /\ B32.to_Q (out_top (fit_at false 200 100 200 100 1920 1080))
     = B32.to_Q (of_int 200)
  /\ B32.to_Q (out_left (fit_at false 200 100 200 100 1920 1080))
     = B32.to_Q (of_int 100)
  /\ B32.to_Q (out_bottom (fit_at false 200 100 200 100 1920 1080))
     = B32.to_Q (of_int 200)
  /\ B32.to_Q (out_right (fit_at false 200 100 200 100 1920 1080))
     = B32.to_Q (of_int 100).
Proof.
  split; [repeat split; reflexivity|].
  apply (PointBox.point_box_is_kept false (of_int 100) (of_int 200)
           (of_int 1920) (of_int 1080)); reflexivity.
Defined.

